(** * Outdoor EduTube: the quiz session of a YouTube video

    A shallow embedding of the session controller ([App]), the video
    player component ([YouTubePlayer]), the question overlay
    ([QuizOverlay]) and the question service ([generateQuestions]),
    with the properties of the specification stated over it.

    Conventions of the embedding.
    - A JavaScript string that is matched against a regular expression
      is a list of UTF-16 code units ([js_string]); [units] turns a
      literal of ASCII characters into one.  Identifiers and messages,
      which are only compared and stored, are [string]s.
    - A JavaScript [number] that holds a time is an exact rational
      ([Q]): sums, differences and comparisons are those of the numbers
      themselves, where the program rounds to binary64.  Counters are
      [nat]; an index received from the provider is a [Z].
    - A React state variable is a field of a record, a setter is a
      function on the record, and a handler is a function of the values
      its closure holds and of the state the setters act on.
    - The provider, the environment variable and [JSON.parse] are the
      fields of an [Environment]; the value [JSON.parse] returns is
      taken to be of the type the program asserts for it. *)

From Stdlib Require Import ZArith NArith QArith Qround Qabs List String Ascii Bool Lia.
From Stdlib Require Import Sorted Permutation.
From Stdlib Require Import Qminmax DecimalString Lqa.
From stdpp Require Import gmap strings.
Import ListNotations.

Local Open Scope nat_scope.

(** ** JavaScript strings *)

Definition js_string := list N.

Definition units (s : string) : js_string :=
  map N_of_ascii (list_ascii_of_string s).

(** ** Regular expressions

    The fragment of ECMAScript regular expressions that [getYouTubeId]
    uses, with the backtracking semantics of the language: a matcher
    takes the text that is left and a continuation, and an alternative
    or a shorter repetition is tried when the continuation fails. *)

Module RegExp.

(** What one character of the pattern accepts. *)
Inductive cclass :=
| CChar (c : N)          (* a literal character *)
| CDot                   (* [.] *)
| CWord                  (* [\w] *)
| CNot (cs : list N).    (* [[^...]] *)

Definition line_terminator (c : N) : bool :=
  existsb (N.eqb c) [10; 13; 8232; 8233]%N.

Definition word_char (c : N) : bool :=
  ((65 <=? c) && (c <=? 90) || (97 <=? c) && (c <=? 122)
   || (48 <=? c) && (c <=? 57) || (c =? 95))%N.

Definition accepts (cl : cclass) (c : N) : bool :=
  match cl with
  | CChar d => N.eqb c d
  | CDot => negb (line_terminator c)
  | CWord => word_char c
  | CNot cs => negb (existsb (N.eqb c) cs)
  end.

Inductive regex :=
| Eps                           (* the empty pattern *)
| Bol                           (* [^] *)
| Chr (cl : cclass)
| Star (cl : cclass)            (* greedy [cl*] *)
| Cat (r1 r2 : regex)
| Alt (r1 r2 : regex)
| Group (n : nat) (r : regex).  (* the [n]-th capturing group *)

(** The captures of a match: group number to captured text. *)
Definition captures := nat -> option js_string.

Definition no_captures : captures := fun _ => None.

Definition capture (n : nat) (g : js_string) (caps : captures) : captures :=
  fun m => if Nat.eqb m n then Some g else caps m.

(** A continuation receives the index reached, the text left and the
    captures so far. *)
Definition cont := nat -> js_string -> captures -> option captures.

(** Greedy repetition of one character class: the longest run first,
    one character less each time the continuation fails. *)
Fixpoint star (cl : cclass) (k : nat -> js_string -> option captures)
         (i : nat) (s : js_string) : option captures :=
  match s with
  | c :: s' =>
      if accepts cl c then
        match star cl k (S i) s' with
        | Some r => Some r
        | None => k i s
        end
      else k i s
  | [] => k i []
  end.

Fixpoint exec (r : regex) (i : nat) (s : js_string) (caps : captures)
         (k : cont) : option captures :=
  match r with
  | Eps => k i s caps
  | Bol => if Nat.eqb i 0 then k i s caps else None
  | Chr cl =>
      match s with
      | c :: s' => if accepts cl c then k (S i) s' caps else None
      | [] => None
      end
  | Star cl => star cl (fun j s' => k j s' caps) i s
  | Cat r1 r2 => exec r1 i s caps (fun j s' caps' => exec r2 j s' caps' k)
  | Alt r1 r2 =>
      match exec r1 i s caps k with
      | Some m => Some m
      | None => exec r2 i s caps k
      end
  | Group n r1 =>
      exec r1 i s caps
           (fun j s' caps' => k j s' (capture n (firstn (j - i) s) caps'))
  end.

Definition accept : cont := fun _ _ caps => Some caps.

(** [String.prototype.match] with a pattern without the [g] flag: the
    first start index, from 0 on, at which the pattern matches. *)
Fixpoint match_from (r : regex) (i : nat) (s : js_string) : option captures :=
  match exec r i s no_captures accept with
  | Some m => Some m
  | None =>
      match s with
      | _ :: s' => match_from r (S i) s'
      | [] => None
      end
  end.

Definition regex_match (r : regex) (s : js_string) : option captures :=
  match_from r 0 s.

(** A sequence of character classes, and the classes of a literal. *)
Fixpoint seq (cls : list cclass) : regex :=
  match cls with
  | [] => Eps
  | cl :: cls' => Cat (Chr cl) (seq cls')
  end.

Definition lit (s : string) : list cclass := map CChar (units s).

End RegExp.

Import RegExp.

(** ** Extraction of the video identifier *)

(** The pattern of the source, one part a line:
    - [^.*]                                        start, then any run;
    - [(youtu.be\/|v\/|u\/\w\/|embed\/|watch\?v=|&v=)]  group 1, a marker;
    - [([^#&?]*] followed by the closing bracket      group 2, the identifier;
    - [.*]                                         the rest of the line. *)
Definition marker : regex :=
  Alt (seq (lit "youtu" ++ CDot :: lit "be/"))
 (Alt (seq (lit "v/"))
 (Alt (seq (lit "u/" ++ CWord :: lit "/"))
 (Alt (seq (lit "embed/"))
 (Alt (seq (lit "watch?v="))
      (seq (lit "&v=")))))).

Definition identifier : regex := Star (CNot (units "#&?")).

Definition regExp : regex :=
  Cat Bol (Cat (Star CDot) (Cat (Group 1 marker) (Cat (Group 2 identifier) (Star CDot)))).

Definition getYouTubeId (url : js_string) : option js_string :=
  match regex_match regExp url with
  | Some m =>
      match m 2 with
      | Some g => if Nat.eqb (length g) 11 then Some g else None
      | None => None
      end
  | None => None
  end.

(** *** The shapes the pattern accepts, stated without the matcher *)

(** The characters that end group 2. *)
Definition delimiter (c : N) : bool := existsb (N.eqb c) (units "#&?").

(** The six alternatives of group 1. *)
Definition marker_shapes : list (list cclass) :=
  [ lit "youtu" ++ CDot :: lit "be/";
    lit "v/";
    lit "u/" ++ CWord :: lit "/";
    lit "embed/";
    lit "watch?v=";
    lit "&v=" ].

(** [m] is, character for character, of the shape [sh]. *)
Fixpoint shape_matches (sh : list cclass) (m : js_string) : bool :=
  match sh, m with
  | [], [] => true
  | cl :: sh', c :: m' => accepts cl c && shape_matches sh' m'
  | _, _ => false
  end.

(** [u] begins with a text of the shape [sh]. *)
Fixpoint shape_prefix (sh : list cclass) (u : js_string) : bool :=
  match sh, u with
  | [], _ => true
  | cl :: sh', c :: u' => accepts cl c && shape_prefix sh' u'
  | _ :: _, [] => false
  end.

Definition is_marker (m : js_string) : bool :=
  existsb (fun sh => shape_matches sh m) marker_shapes.

Definition begins_with_marker (u : js_string) : bool :=
  existsb (fun sh => shape_prefix sh u) marker_shapes.

(** No marker begins anywhere in [u]. *)
Fixpoint marker_free (u : js_string) : bool :=
  negb (begins_with_marker u)
  && match u with
     | [] => true
     | _ :: u' => marker_free u'
     end.

(** [r] is empty or begins with a delimiter. *)
Definition ends_identifier (r : js_string) : bool :=
  match r with
  | [] => true
  | c :: _ => delimiter c
  end.

(** The five shapes the specification lists, read literally. *)
Definition listed_shapes : list (list cclass) :=
  [ lit "watch?v=";
    lit "youtu.be/";
    lit "embed/";
    lit "v/";
    lit "u/" ++ CWord :: lit "/" ].

Definition is_listed_marker (m : js_string) : bool :=
  existsb (fun sh => shape_matches sh m) listed_shapes.

(** Some listed marker begins somewhere in [u]. *)
Fixpoint has_listed_marker (u : js_string) : bool :=
  existsb (fun sh => shape_prefix sh u) listed_shapes
  || match u with
     | [] => false
     | _ :: u' => has_listed_marker u'
     end.

(** What follows the first repetition of the pattern: the two groups
    and the rest of the line, run from index [j] on the text [u]. *)
Definition after_prefix (j : nat) (u : js_string) : option captures :=
  exec (Cat (Group 1 marker) (Cat (Group 2 identifier) (Star CDot)))
       j u no_captures accept.

(** ** The data of a session *)

Inductive AppState := SETUP | GENERATING | PLAYING | FINISHED.

Record QuizQuestion := mkQuizQuestion {
  id : string;
  timestamp : Q;                 (* seconds into the video *)
  question : string;
  options : list string;
  correctAnswerIndex : Z;
  feedback : string;
  verbFocus : option string
}.

Record Score := mkScore {
  correct : nat;
  total : nat
}.

#[global] Instance AppState_eq_dec : EqDecision AppState.
Proof. solve_decision. Defined.

#[global] Instance Q_eq_dec : EqDecision Q.
Proof. solve_decision. Defined.

#[global] Instance QuizQuestion_eq_dec : EqDecision QuizQuestion.
Proof. solve_decision. Defined.

#[global] Instance Score_eq_dec : EqDecision Score.
Proof. solve_decision. Defined.

(** ** Numbers *)

Definition Qlt_bool (x y : Q) : bool := negb (Qle_bool y x).

(** A string is falsy when it is empty. *)
Definition truthy (s : string) : bool := negb (String.eqb s "").

(** ** [Array.prototype.sort]

    The language leaves the algorithm open but requires the result to
    be stable; for a comparator that orders the elements consistently,
    as a difference of numbers does, the result is then determined:
    the sorted arrangement that keeps equal elements in their order.
    Insertion from the right computes it: an element goes behind the
    elements it compares greater than. *)

Section Sort.
Context {A : Type}.
Variable compareFn : A -> A -> Q.

Fixpoint insert_sorted (x : A) (l : list A) : list A :=
  match l with
  | [] => [x]
  | y :: l' =>
      if Qlt_bool 0 (compareFn x y) then y :: insert_sorted x l'
      else x :: l
  end.

Definition sort (l : list A) : list A := fold_right insert_sorted [] l.
End Sort.

(** ** The question service: [generateQuestions]

    The provider is outside the program.  What the program sends it is
    the prompt, of which the topic, the transcript and the estimated
    timestamps are kept; what the program gets back is a rejection,
    with the message of the error, or a response and its text. *)

Record Prompt := mkPrompt {
  prompt_topic : string;
  prompt_transcript : string;
  prompt_segments : list Z
}.

Inductive Reply :=
| Rejects (message : string)
| Responds (text : option string).

Record Environment := mkEnvironment {
  API_KEY : option string;                              (* process.env.API_KEY *)
  generateContent : Prompt -> Reply;                    (* ai.models.generateContent *)
  JSON_parse : string -> string + list QuizQuestion     (* a SyntaxError's message, or the value *)
}.

(** The estimated timestamps of the prompt. *)
Definition segments (durationMinutes : Q) : list Z :=
  map (fun p => Qfloor (durationMinutes * 60 * p)) [0.1; 0.3; 0.5; 0.7; 0.9]%Q.

(** The result is the list of the calls made to the provider and
    either the message of the error thrown or the questions returned.
    [durationMinutes] is [None] when the caller leaves the argument
    out. *)
Definition generateQuestions (env : Environment) (topic transcript : string)
           (durationMinutes : option Q)
  : list Prompt * (string + list QuizQuestion) :=
  let durationMinutes := match durationMinutes with
                         | Some d => d
                         | None => 10%Q
                         end in
  match API_KEY env with
  | None => ([], inl "API Key is missing"%string)
  | Some apiKey =>
      if negb (truthy apiKey) then ([], inl "API Key is missing"%string)
      else
        let prompt := mkPrompt topic transcript (segments durationMinutes) in
        ([prompt],
         match generateContent env prompt with
         | Rejects message => inl message
         | Responds (Some text) =>
             if truthy text then JSON_parse env text
             else inl "No response from Gemini"%string
         | Responds None => inl "No response from Gemini"%string
         end)
  end.

(** ** The session controller: [App] *)

Record App := mkApp {
  state : AppState;
  videoUrl : js_string;
  transcript : string;
  topic : string;
  isGenerating : bool;
  error : option string;
  questions : list QuizQuestion;
  currentVideoId : js_string;
  activeQuestion : option QuizQuestion;
  answeredQuestionIds : gset string;
  shouldPause : bool;
  score : Score;
  playbackTime : Q
}.

(** The state of the first render. *)
Definition initial_App : App :=
  {| state := SETUP;
     videoUrl := units "https://www.youtube.com/watch?v=sSsTR8qqDl4";
     transcript := "";
     topic := "Outdoor Boys Camping & Survival";
     isGenerating := false;
     error := None;
     questions := [];
     currentVideoId := [];
     activeQuestion := None;
     answeredQuestionIds := ∅;
     shouldPause := false;
     score := mkScore 0 0;
     playbackTime := 0 |}.

(** The setters of the state variables. *)
Definition setState (v : AppState) (s : App) : App :=
  mkApp v (videoUrl s) (transcript s) (topic s) (isGenerating s) (error s)
        (questions s) (currentVideoId s) (activeQuestion s)
        (answeredQuestionIds s) (shouldPause s) (score s) (playbackTime s).

Definition setVideoUrl (v : js_string) (s : App) : App :=
  mkApp (state s) v (transcript s) (topic s) (isGenerating s) (error s)
        (questions s) (currentVideoId s) (activeQuestion s)
        (answeredQuestionIds s) (shouldPause s) (score s) (playbackTime s).

Definition setTranscript (v : string) (s : App) : App :=
  mkApp (state s) (videoUrl s) v (topic s) (isGenerating s) (error s)
        (questions s) (currentVideoId s) (activeQuestion s)
        (answeredQuestionIds s) (shouldPause s) (score s) (playbackTime s).

Definition setTopic (v : string) (s : App) : App :=
  mkApp (state s) (videoUrl s) (transcript s) v (isGenerating s) (error s)
        (questions s) (currentVideoId s) (activeQuestion s)
        (answeredQuestionIds s) (shouldPause s) (score s) (playbackTime s).

Definition setIsGenerating (v : bool) (s : App) : App :=
  mkApp (state s) (videoUrl s) (transcript s) (topic s) v (error s)
        (questions s) (currentVideoId s) (activeQuestion s)
        (answeredQuestionIds s) (shouldPause s) (score s) (playbackTime s).

Definition setError (v : option string) (s : App) : App :=
  mkApp (state s) (videoUrl s) (transcript s) (topic s) (isGenerating s) v
        (questions s) (currentVideoId s) (activeQuestion s)
        (answeredQuestionIds s) (shouldPause s) (score s) (playbackTime s).

Definition setQuestions (v : list QuizQuestion) (s : App) : App :=
  mkApp (state s) (videoUrl s) (transcript s) (topic s) (isGenerating s) (error s)
        v (currentVideoId s) (activeQuestion s)
        (answeredQuestionIds s) (shouldPause s) (score s) (playbackTime s).

Definition setCurrentVideoId (v : js_string) (s : App) : App :=
  mkApp (state s) (videoUrl s) (transcript s) (topic s) (isGenerating s) (error s)
        (questions s) v (activeQuestion s)
        (answeredQuestionIds s) (shouldPause s) (score s) (playbackTime s).

Definition setActiveQuestion (v : option QuizQuestion) (s : App) : App :=
  mkApp (state s) (videoUrl s) (transcript s) (topic s) (isGenerating s) (error s)
        (questions s) (currentVideoId s) v
        (answeredQuestionIds s) (shouldPause s) (score s) (playbackTime s).

(** [setAnsweredQuestionIds] and [setScore] take a function of the
    previous value; a new value is given as the constant function. *)
Definition setAnsweredQuestionIds (f : gset string -> gset string) (s : App) : App :=
  mkApp (state s) (videoUrl s) (transcript s) (topic s) (isGenerating s) (error s)
        (questions s) (currentVideoId s) (activeQuestion s)
        (f (answeredQuestionIds s)) (shouldPause s) (score s) (playbackTime s).

Definition setShouldPause (v : bool) (s : App) : App :=
  mkApp (state s) (videoUrl s) (transcript s) (topic s) (isGenerating s) (error s)
        (questions s) (currentVideoId s) (activeQuestion s)
        (answeredQuestionIds s) v (score s) (playbackTime s).

Definition setScore (f : Score -> Score) (s : App) : App :=
  mkApp (state s) (videoUrl s) (transcript s) (topic s) (isGenerating s) (error s)
        (questions s) (currentVideoId s) (activeQuestion s)
        (answeredQuestionIds s) (shouldPause s) (f (score s)) (playbackTime s).

Definition setPlaybackTime (v : Q) (s : App) : App :=
  mkApp (state s) (videoUrl s) (transcript s) (topic s) (isGenerating s) (error s)
        (questions s) (currentVideoId s) (activeQuestion s)
        (answeredQuestionIds s) (shouldPause s) (score s) v.

(** The comparator [handleGenerate] sorts with. *)
Definition byTimestamp (a b : QuizQuestion) : Q := timestamp a - timestamp b.

(** [handleGenerate], run to its end, the wait for the provider
    included: the calls made to the provider and the state the setters
    leave. *)
Definition handleGenerate (env : Environment) (s : App) : list Prompt * App :=
  match getYouTubeId (videoUrl s) with
  | None => ([], setError (Some "Please enter a valid YouTube URL"%string) s)
  | Some id' =>
      let s1 := setCurrentVideoId id' (setError None (setIsGenerating true s)) in
      let (calls, result) := generateQuestions env (topic s) (transcript s) (Some 15%Q) in
      let s2 :=
        match result with
        | inr qs =>
            let sortedQs := sort byTimestamp qs in
            setState PLAYING (setQuestions sortedQs s1)
        | inl message =>
            setError (Some (if truthy message then message
                            else "Failed to generate quiz. Please check your API key."%string))
                     s1
        end in
      (calls, setIsGenerating false s2)
  end.

(** The test of [handleTimeUpdate]: the question is within the window
    of the current time and is not answered. *)
Definition pending (answeredQuestionIds : gset string) (currentTime : Q)
           (q : QuizQuestion) : bool :=
  let timeDiff := Qabs (currentTime - timestamp q) in
  Qlt_bool timeDiff 1.5 && negb (bool_decide (id q ∈ answeredQuestionIds)).

(** [handleTimeUpdate] is memoised on [questions] and
    [answeredQuestionIds]: these two are the values its closure holds,
    while the setters act on the state of the moment. *)
Definition handleTimeUpdate (questions : list QuizQuestion)
           (answeredQuestionIds : gset string) (currentTime : Q) (s : App) : App :=
  let s := setPlaybackTime currentTime s in
  let pendingQuestion := find (pending answeredQuestionIds currentTime) questions in
  match pendingQuestion with
  | Some q => setActiveQuestion (Some q) (setShouldPause true s)
  | None => s
  end.

(** [handleQuestionComplete] holds the [activeQuestion] of the render
    that created it. *)
Definition handleQuestionComplete (activeQuestion : option QuizQuestion)
           (isCorrect : bool) (s : App) : App :=
  let s :=
    match activeQuestion with
    | Some q =>
        setAnsweredQuestionIds (fun prev => prev ∪ {[ id q ]})
          (setScore (fun prev => mkScore (correct prev + (if isCorrect then 1 else 0))
                                         (total prev + 1)) s)
    | None => s
    end in
  setShouldPause false (setActiveQuestion None s).

Definition handleRestart (s : App) : App :=
  setQuestions []
    (setShouldPause false
       (setActiveQuestion None
          (setAnsweredQuestionIds (fun _ => ∅)
             (setScore (fun _ => mkScore 0 0)
                (setState SETUP s))))).

Definition progressPercentage (s : App) : Q :=
  if Nat.eqb (length (questions s)) 0 then 0
  else (inject_Z (Z.of_nat (total (score s)))
        / inject_Z (Z.of_nat (length (questions s)))) * 100.


(** ** The question overlay: [QuizOverlay] *)

Record QuizOverlay := mkQuizOverlay {
  selectedOption : option nat;
  isSubmitted : bool
}.

Definition initial_QuizOverlay : QuizOverlay := mkQuizOverlay None false.

Definition handleSubmit (index : nat) (o : QuizOverlay) : QuizOverlay :=
  if isSubmitted o then o else mkQuizOverlay (Some index) true.

(** [handleContinue] calls [onComplete] or does nothing: the result is
    the argument of the call, if there is one. *)
Definition handleContinue (question : QuizQuestion) (o : QuizOverlay) : option bool :=
  match selectedOption o with
  | Some sel => Some (Z.eqb (Z.of_nat sel) (correctAnswerIndex question))
  | None => None
  end.

(** ** The player: [YouTubePlayer]

    The component creates the widget in [initializePlayer], called from
    the effect that depends on [videoId] alone, and the widget's
    [onReady] starts the polling timer: the timer calls the
    [onTimeUpdate] of the render in which the component was mounted,
    whatever [onTimeUpdate] later renders are given.  That function is
    a [handleTimeUpdate] of [App], so the player keeps the two values
    this one holds.

    The effect that pauses the video depends on
    [[shouldPause, isReady, onPaused]].  A function is compared by
    identity; [App] passes a function it creates anew in each of its
    renders, which is identified by the number of that render. *)

Inductive Command :=
| PauseVideo      (* playerRef.current.pauseVideo() *)
| OnPaused.       (* onPaused() *)

#[global] Instance Command_eq_dec : EqDecision Command.
Proof. solve_decision. Defined.

Record YouTubePlayer := mkYouTubePlayer {
  onTimeUpdate_questions : list QuizQuestion;
  onTimeUpdate_answeredQuestionIds : gset string;
  isReady : bool;
  pause_deps : bool * bool * nat  (* the dependencies at the last commit *)
}.

(** The body of the effect that pauses the video. *)
Definition pause_effect (shouldPause isReady : bool) : list Command :=
  if isReady then
    if shouldPause then [PauseVideo; OnPaused] else []
  else [].

(** The player is rendered with the properties [shouldPause] and
    [onPaused]; the effect runs when a dependency has changed. *)
Definition render_YouTubePlayer (shouldPause : bool) (onPaused : nat)
           (p : YouTubePlayer) : YouTubePlayer * list Command :=
  let deps := (shouldPause, isReady p, onPaused) in
  if bool_decide (deps = pause_deps p) then (p, [])
  else (mkYouTubePlayer (onTimeUpdate_questions p)
                        (onTimeUpdate_answeredQuestionIds p)
                        (isReady p) deps,
        pause_effect shouldPause (isReady p)).

(** Mounting: the widget is not ready yet, and every effect runs. *)
Definition mount_YouTubePlayer (questions : list QuizQuestion)
           (answeredQuestionIds : gset string) (shouldPause : bool)
           (onPaused : nat) : YouTubePlayer * list Command :=
  (mkYouTubePlayer questions answeredQuestionIds false (shouldPause, false, onPaused),
   pause_effect shouldPause false).

(** ** A session: [App] and the components it renders *)

Record Session := mkSession {
  app : App;
  renders : nat;                      (* the renders of [App] so far *)
  player : option YouTubePlayer;      (* mounted while PLAYING *)
  overlay : option QuizOverlay;       (* mounted while a question is shown *)
  commands : list Command             (* what the player has issued, in order *)
}.

Definition initial_Session : Session :=
  mkSession initial_App 1 None None [].

(** A setter that is given the value the variable holds changes
    nothing and causes no render.  Numbers are compared as numbers.
    Where a handler stores a new array, set or score object, it changes
    [state] or [score] along with it, so that comparing the values of
    the variables tells whether any of them changed. *)
Definition same_state (a b : App) : bool :=
  bool_decide (state a = state b)
  && bool_decide (videoUrl a = videoUrl b)
  && bool_decide (transcript a = transcript b)
  && bool_decide (topic a = topic b)
  && bool_decide (isGenerating a = isGenerating b)
  && bool_decide (error a = error b)
  && bool_decide (questions a = questions b)
  && bool_decide (currentVideoId a = currentVideoId b)
  && bool_decide (activeQuestion a = activeQuestion b)
  && bool_decide (answeredQuestionIds a = answeredQuestionIds b)
  && bool_decide (shouldPause a = shouldPause b)
  && bool_decide (score a = score b)
  && Qeq_bool (playbackTime a) (playbackTime b).

(** A render of [App] with the state [a]: the player is mounted,
    rendered again or unmounted, and so is the overlay. *)
Definition render_App (a : App) (s : Session) : Session :=
  let n := S (renders s) in
  let '(player', issued) :=
    if bool_decide (state a = PLAYING) then
      let '(p, cs) :=
        match player s with
        | Some p => render_YouTubePlayer (shouldPause a) n p
        | None => mount_YouTubePlayer (questions a) (answeredQuestionIds a)
                                      (shouldPause a) n
        end in
      (Some p, cs)
    else (None, []) in
  let overlay' :=
    if bool_decide (state a = PLAYING) && shouldPause a then
      match activeQuestion a with
      | Some _ => match overlay s with
                  | Some o => Some o
                  | None => Some initial_QuizOverlay
                  end
      | None => None
      end
    else None in
  mkSession a n player' overlay' (commands s ++ issued).

Definition update_App (a : App) (s : Session) : Session :=
  if same_state a (app s) then s else render_App a s.

(** What happens to a session. *)
Inductive Event :=
| EditVideoUrl (url : js_string)    (* the inputs of the setup form *)
| EditTopic (text : string)
| EditTranscript (text : string)
| ClickStart                        (* its button: [handleGenerate] *)
| PlayerReady                       (* the widget's [onReady] *)
| Tick (currentTime : Q)            (* the polling timer fires *)
| SelectOption (index : nat)        (* an option of the overlay: [handleSubmit] *)
| ClickContinue                     (* its button: [handleContinue] *)
| ClickExit.                        (* the exit button: [handleRestart] *)

(** An event that the page cannot produce in the state it is in leaves
    the session as it is.  [handleGenerate] runs to its end within one
    step; the renders of [App] during the wait are not counted, no
    player being mounted then. *)
Definition step (env : Environment) (e : Event) (s : Session) : Session :=
  let a := app s in
  match e with
  | EditVideoUrl url =>
      if bool_decide (state a = SETUP) then update_App (setVideoUrl url a) s else s
  | EditTopic text =>
      if bool_decide (state a = SETUP) then update_App (setTopic text a) s else s
  | EditTranscript text =>
      if bool_decide (state a = SETUP) then update_App (setTranscript text a) s else s
  | ClickStart =>
      if bool_decide (state a = SETUP) && negb (isGenerating a)
      then update_App (snd (handleGenerate env a)) s
      else s
  | PlayerReady =>
      match player s with
      | Some p =>
          let ready := mkYouTubePlayer (onTimeUpdate_questions p)
                                       (onTimeUpdate_answeredQuestionIds p)
                                       true (pause_deps p) in
          let '(p', issued) :=
            render_YouTubePlayer (shouldPause a) (snd (pause_deps p)) ready in
          mkSession a (renders s) (Some p') (overlay s) (commands s ++ issued)
      | None => s
      end
  | Tick currentTime =>
      match player s with
      | Some p =>
          if isReady p then
            update_App (handleTimeUpdate (onTimeUpdate_questions p)
                                         (onTimeUpdate_answeredQuestionIds p)
                                         currentTime a) s
          else s
      | None => s
      end
  | SelectOption index =>
      match overlay s, activeQuestion a with
      | Some o, Some q =>
          if Nat.ltb index (length (options q))
          then mkSession a (renders s) (player s) (Some (handleSubmit index o)) (commands s)
          else s
      | _, _ => s
      end
  | ClickContinue =>
      match overlay s, activeQuestion a with
      | Some o, Some q =>
          if isSubmitted o then
            match handleContinue q o with
            | Some isCorrect =>
                update_App (handleQuestionComplete (activeQuestion a) isCorrect a) s
            | None => s
            end
          else s
      | _, _ => s
      end
  | ClickExit =>
      if bool_decide (state a = PLAYING) then update_App (handleRestart a) s else s
  end.

Definition run (env : Environment) (events : list Event) (s : Session) : Session :=
  fold_left (fun s e => step env e s) events s.


(** ** Sample data

    A provider that holds a credential and answers with the given
    questions, and questions that differ in identifier and timestamp
    only. *)

Definition sample_question (i : string) (t : Q) : QuizQuestion :=
  mkQuizQuestion i t "Which verb fits?" ["pitch"; "cook"; "paddle"; "hike"] 2
                 "The third verb is the one used in the video." (Some "paddle").

Definition sample_env (qs : list QuizQuestion) : Environment :=
  mkEnvironment (Some "credential")
                (fun _ => Responds (Some "[...]"))
                (fun _ => inr qs).

(** The session after a successful start and the widget's [onReady]. *)
Definition playing (qs : list QuizQuestion) : Session :=
  run (sample_env qs) [ClickStart; PlayerReady] initial_Session.


(** ** Words of the specification *)

(** A question is due at a time when its timestamp is less than 1.5
    seconds away and its identifier is not among the answered ones. *)
Definition due (answeredQuestionIds : gset string) (currentTime : Q)
           (q : QuizQuestion) : Prop :=
  (Qabs (currentTime - timestamp q) < 1.5)%Q /\ id q ∉ answeredQuestionIds.

(** The order of the timestamps. *)
Definition earlier (a b : QuizQuestion) : Prop := (timestamp a <= timestamp b)%Q.

(** The sessions a sequence of events leads through. *)
Fixpoint trace (env : Environment) (events : list Event) (s : Session) : list Session :=
  match events with
  | [] => []
  | e :: events' => let s' := step env e s in s' :: trace env events' s'
  end.


(** What holds of every session the page can be in: a mounted player
    goes with the state PLAYING, the handler of its timer holds the
    empty set of answered identifiers, and the callback of its last
    dependencies stems from a render that has taken place; without a
    player there is no overlay and no answered identifier. *)
Definition session_invariant (s : Session) : Prop :=
  (forall p, player s = Some p ->
             onTimeUpdate_answeredQuestionIds p = ∅
             /\ snd (pause_deps p) <= renders s
             /\ state (app s) = PLAYING)
  /\ (player s = None ->
      overlay s = None
      /\ answeredQuestionIds (app s) = ∅
      /\ state (app s) <> PLAYING).


(** ** What every session keeps

    The part of the invariant that speaks of the state of [App] alone,
    and the part that ties the mounted components to it. *)

Definition App_wellformed (a : App) : Prop :=
  (state a = SETUP \/ state a = PLAYING)
  /\ (state a = SETUP ->
      questions a = [] /\ activeQuestion a = None
      /\ answeredQuestionIds a = ∅ /\ score a = mkScore 0 0
      /\ shouldPause a = false)
  /\ (state a = PLAYING -> getYouTubeId (videoUrl a) = Some (currentVideoId a))
  /\ correct (score a) <= total (score a)
  /\ size (answeredQuestionIds a) <= total (score a)
  /\ (shouldPause a = true <-> activeQuestion a <> None)
  /\ (forall q, activeQuestion a = Some q -> In q (questions a))
  /\ (forall i, i ∈ answeredQuestionIds a -> exists q, In q (questions a) /\ id q = i)
  /\ StronglySorted earlier (questions a)
  /\ isGenerating a = false.

Definition Session_wellformed (s : Session) : Prop :=
  App_wellformed (app s)
  /\ (forall p, player s = Some p -> onTimeUpdate_questions p = questions (app s))
  /\ (player s <> None <-> state (app s) = PLAYING)
  /\ (overlay s <> None <-> state (app s) = PLAYING /\ shouldPause (app s) = true).


(** ** What the overlay shows

    The class of an option's button is one of four texts, and the two
    icons and the banner are shown or not: the four cases and the tests
    are kept, the texts are not. *)

Inductive OptionStyle :=
| Selectable        (* not submitted: every option can be chosen *)
| MarkedCorrect     (* green *)
| MarkedWrong       (* red *)
| Dimmed.           (* grey *)

#[global] Instance OptionStyle_eq_dec : EqDecision OptionStyle.
Proof. solve_decision. Defined.

Definition btnClass (question : QuizQuestion) (o : QuizOverlay) (idx : nat) : OptionStyle :=
  if negb (isSubmitted o) then Selectable
  else if Z.eqb (Z.of_nat idx) (correctAnswerIndex question) then MarkedCorrect
  else if bool_decide (selectedOption o = Some idx) then MarkedWrong
  else Dimmed.

Definition showCheckCircle (question : QuizQuestion) (o : QuizOverlay) (idx : nat) : bool :=
  isSubmitted o && Z.eqb (Z.of_nat idx) (correctAnswerIndex question).

Definition showXCircle (question : QuizQuestion) (o : QuizOverlay) (idx : nat) : bool :=
  isSubmitted o && bool_decide (selectedOption o = Some idx)
  && negb (Z.eqb (Z.of_nat idx) (correctAnswerIndex question)).

(** [isCorrect]: the banner says "Correct!" or "Not quite right." *)
Definition isCorrect (question : QuizQuestion) (o : QuizOverlay) : bool :=
  match selectedOption o with
  | Some sel => Z.eqb (Z.of_nat sel) (correctAnswerIndex question)
  | None => false
  end.

(** ** What the playback view shows *)

(** The position of the playback bar and of a question's marker, in
    percent of the width: [Math.min((x / 900) * 100, 100)]. *)
Definition timelinePercent (x : Q) : Q := Qmin ((x / 900) * 100) 100.

Definition isAnswered (answeredQuestionIds : gset string) (q : QuizQuestion) : bool :=
  bool_decide (id q ∈ answeredQuestionIds).

(** [questions[idx-1]?.id || 'start']: the identifier of the question
    before, or "start" when there is none or when it is empty. *)
Definition previousId (questions : list QuizQuestion) (idx : nat) : string :=
  match idx with
  | 0 => "start"
  | S j =>
      match nth_error questions j with
      | Some p => if truthy (id p) then id p else "start"
      | None => "start"
      end
  end.

Definition isNext (questions : list QuizQuestion) (answeredQuestionIds : gset string)
           (idx : nat) (q : QuizQuestion) : bool :=
  negb (isAnswered answeredQuestionIds q)
  && negb (bool_decide (previousId questions idx ∈ answeredQuestionIds)).

(** The three looks of a slot of the lesson plan. *)
Inductive SlotStyle := SlotCompleted | SlotNext | SlotWaiting.

#[global] Instance SlotStyle_eq_dec : EqDecision SlotStyle.
Proof. solve_decision. Defined.

Definition slotStyle (questions : list QuizQuestion) (answeredQuestionIds : gset string)
           (idx : nat) (q : QuizQuestion) : SlotStyle :=
  if isAnswered answeredQuestionIds q then SlotCompleted
  else if isNext questions answeredQuestionIds idx q then SlotNext
  else SlotWaiting.





(** ** The widgets of a page

    What [YouTubePlayer] does to the page it lives in: the script of
    the widget library, the callback the library calls when it is
    loaded, the widget and the timer of each instance of the component.
    An instance is a number; so is a widget and a timer, in the order
    of their creation. *)

Module Widget.

Record Instance := mkInstance {
  containerRef : bool;          (* the element of the instance is in the page *)
  playerRef : option nat;       (* the widget the instance holds *)
  intervalRef : option nat      (* the timer it started last *)
}.

(** The callback [window.onYouTubeIframeAPIReady] is built up from the
    [initializePlayer] of one instance after another: the first is
    called under the test [if (window.YT)], each later one after the
    callback that was there before. *)
Record Page := mkPage {
  YT : bool;                                        (* window.YT && window.YT.Player *)
  onYouTubeIframeAPIReady : option (list (bool * nat));
  scripts : nat;                                    (* script tags inserted *)
  instances : gmap nat Instance;
  created : nat;                                    (* widgets created so far *)
  destroyed : gset nat;                             (* widgets destroyed *)
  started : nat;                                    (* timers started so far *)
  cleared : gset nat;                               (* timers cleared *)
  typeErrors : nat                                  (* [new window.YT.Player] without the library *)
}.

Definition empty_Page : Page := mkPage false None 0 ∅ 0 ∅ 0 ∅ 0.

Definition set_instance (i : nat) (inst : Instance) (pg : Page) : Page :=
  mkPage (YT pg) (onYouTubeIframeAPIReady pg) (scripts pg)
         (<[i := inst]> (instances pg))
         (created pg) (destroyed pg) (started pg) (cleared pg) (typeErrors pg).

Definition initializePlayer (i : nat) (pg : Page) : Page :=
  match instances pg !! i with
  | Some inst =>
      match playerRef inst with
      | Some _ => pg
      | None =>
          if negb (containerRef inst) then pg
          else if YT pg then
            mkPage (YT pg) (onYouTubeIframeAPIReady pg) (scripts pg)
                   (<[i := mkInstance (containerRef inst) (Some (created pg))
                                      (intervalRef inst)]> (instances pg))
                   (S (created pg)) (destroyed pg) (started pg) (cleared pg)
                   (typeErrors pg)
          else
            mkPage (YT pg) (onYouTubeIframeAPIReady pg) (scripts pg) (instances pg)
                   (created pg) (destroyed pg) (started pg) (cleared pg)
                   (S (typeErrors pg))
      end
  | None => pg
  end.

(** The body of the effect that depends on [videoId]. *)
Definition effect (i : nat) (pg : Page) : Page :=
  if YT pg then initializePlayer i pg
  else
    match onYouTubeIframeAPIReady pg with
    | None =>
        mkPage (YT pg) (Some [(true, i)]) (S (scripts pg)) (instances pg)
               (created pg) (destroyed pg) (started pg) (cleared pg) (typeErrors pg)
    | Some oldCallback =>
        mkPage (YT pg) (Some (oldCallback ++ [(false, i)])) (scripts pg) (instances pg)
               (created pg) (destroyed pg) (started pg) (cleared pg) (typeErrors pg)
    end.

(** What the effect returns: the timer is cleared, the widget is
    destroyed and let go of. *)
Definition cleanup (i : nat) (pg : Page) : Page :=
  match instances pg !! i with
  | Some inst =>
      let cleared' := match intervalRef inst with
                      | Some t => cleared pg ∪ {[ t ]}
                      | None => cleared pg
                      end in
      match playerRef inst with
      | Some w =>
          mkPage (YT pg) (onYouTubeIframeAPIReady pg) (scripts pg)
                 (<[i := mkInstance (containerRef inst) None (intervalRef inst)]>
                    (instances pg))
                 (created pg) (destroyed pg ∪ {[ w ]}) (started pg) cleared'
                 (typeErrors pg)
      | None =>
          mkPage (YT pg) (onYouTubeIframeAPIReady pg) (scripts pg) (instances pg)
                 (created pg) (destroyed pg) (started pg) cleared' (typeErrors pg)
      end
  | None => pg
  end.

(** The callback, called by the library. *)
Definition call (callback : list (bool * nat)) (pg : Page) : Page :=
  fold_left (fun (pg : Page) (c : bool * nat) =>
               if fst c then (if YT pg then initializePlayer (snd c) pg else pg)
               else initializePlayer (snd c) pg)
            callback pg.

(** The widget's [onReady]: a timer is started, after the one started
    before is cleared. *)
Definition onReady (i : nat) (pg : Page) : Page :=
  match instances pg !! i with
  | Some inst =>
      let cleared' := match intervalRef inst with
                      | Some t => cleared pg ∪ {[ t ]}
                      | None => cleared pg
                      end in
      mkPage (YT pg) (onYouTubeIframeAPIReady pg) (scripts pg)
             (<[i := mkInstance (containerRef inst) (playerRef inst) (Some (started pg))]>
                (instances pg))
             (created pg) (destroyed pg) (S (started pg)) cleared' (typeErrors pg)
  | None => pg
  end.

Inductive PageEvent :=
| Mount (i : nat)            (* a new instance is rendered *)
| ChangeVideoId (i : nat)    (* an instance is rendered with another [videoId] *)
| Unmount (i : nat)          (* an instance leaves the page *)
| LibraryLoaded              (* the script has run and calls the callback *)
| WidgetReady (i : nat).     (* the widget of an instance reports ready *)

(** An instance is mounted once, under a number not used before; the
    library loads once, and only when its script is in the page; a
    widget reports ready only while its instance holds it. *)
Definition page_step (e : PageEvent) (pg : Page) : Page :=
  match e with
  | Mount i =>
      match instances pg !! i with
      | None => effect i (set_instance i (mkInstance true None None) pg)
      | Some _ => pg
      end
  | ChangeVideoId i =>
      match instances pg !! i with
      | Some inst => if containerRef inst then effect i (cleanup i pg) else pg
      | None => pg
      end
  | Unmount i =>
      match instances pg !! i with
      | Some inst =>
          if containerRef inst then
            let pg' := cleanup i pg in
            match instances pg' !! i with
            | Some inst' =>
                set_instance i (mkInstance false (playerRef inst') (intervalRef inst')) pg'
            | None => pg'
            end
          else pg
      | None => pg
      end
  | LibraryLoaded =>
      if negb (YT pg) && Nat.ltb 0 (scripts pg) then
        let pg' := mkPage true (onYouTubeIframeAPIReady pg) (scripts pg) (instances pg)
                          (created pg) (destroyed pg) (started pg) (cleared pg)
                          (typeErrors pg) in
        match onYouTubeIframeAPIReady pg with
        | Some callback => call callback pg'
        | None => pg'
        end
      else pg
  | WidgetReady i =>
      match instances pg !! i with
      | Some inst =>
          match playerRef inst with
          | Some _ => onReady i pg
          | None => pg
          end
      | None => pg
      end
  end.

Definition page_run (events : list PageEvent) : Page :=
  fold_left (fun pg e => page_step e pg) events empty_Page.

(** A widget is live when it was created and not destroyed; a timer
    runs when it was started and not cleared. *)
Definition live (pg : Page) (w : nat) : Prop := w < created pg /\ w ∉ destroyed pg.

Definition running (pg : Page) (t : nat) : Prop := t < started pg /\ t ∉ cleared pg.

(** What a page keeps, part by part: the script and the library; the
    widgets; the timers; the instances the library has served; the
    instances that wait for it. *)
Definition library_wellformed (pg : Page) : Prop :=
  scripts pg <= 1
  /\ typeErrors pg = 0
  /\ (YT pg = true -> scripts pg = 1)
  /\ (onYouTubeIframeAPIReady pg <> None <-> scripts pg = 1).

Definition widgets_wellformed (pg : Page) : Prop :=
  (forall i inst, instances pg !! i = Some inst ->
     (containerRef inst = false -> playerRef inst = None)
     /\ (forall w, playerRef inst = Some w -> live pg w))
  /\ (forall i j inst1 inst2 w,
        instances pg !! i = Some inst1 -> instances pg !! j = Some inst2 ->
        playerRef inst1 = Some w -> playerRef inst2 = Some w -> i = j)
  /\ (forall w, live pg w ->
        exists i inst, instances pg !! i = Some inst /\ playerRef inst = Some w)
  /\ (forall w, w ∈ destroyed pg -> w < created pg).

Definition timers_wellformed (pg : Page) : Prop :=
  (forall i inst t, instances pg !! i = Some inst -> intervalRef inst = Some t ->
                    t < started pg)
  /\ (forall t, running pg t ->
        exists i inst, instances pg !! i = Some inst /\ intervalRef inst = Some t
                       /\ containerRef inst = true /\ playerRef inst <> None)
  /\ (forall t, t ∈ cleared pg -> t < started pg).

Definition served (pg : Page) : Prop :=
  YT pg = true ->
  forall i inst, instances pg !! i = Some inst -> containerRef inst = true ->
                 playerRef inst <> None.

Definition registered (pg : Page) : Prop :=
  YT pg = false ->
  forall i inst, instances pg !! i = Some inst -> containerRef inst = true ->
                 exists callback g, onYouTubeIframeAPIReady pg = Some callback
                                    /\ In (g, i) callback.

Definition Page_wellformed (pg : Page) : Prop :=
  library_wellformed pg /\ widgets_wellformed pg /\ timers_wellformed pg
  /\ served pg /\ registered pg.

(** The set of what an optional reference holds. *)
Definition option_set (o : option nat) : gset nat :=
  match o with
  | Some x => {[ x ]}
  | None => ∅
  end.

End Widget.

(* ===================================================================== *)
(** * Properties *)
(* ===================================================================== *)

(** ** The identifier of a video: [getYouTubeId] *)

Example getYouTubeId_default_url :
  getYouTubeId (units "https://www.youtube.com/watch?v=sSsTR8qqDl4")
  = Some (units "sSsTR8qqDl4").
Proof. vm_compute. reflexivity. Qed.

Example getYouTubeId_short_url :
  getYouTubeId (units "https://youtu.be/dQw4w9WgXcQ?t=42")
  = Some (units "dQw4w9WgXcQ").
Proof. vm_compute. reflexivity. Qed.

Example getYouTubeId_embed_url :
  getYouTubeId (units "https://www.youtube.com/embed/dQw4w9WgXcQ")
  = Some (units "dQw4w9WgXcQ").
Proof. vm_compute. reflexivity. Qed.

Example getYouTubeId_no_marker :
  getYouTubeId (units "https://example.com/") = None.
Proof. vm_compute. reflexivity. Qed.

(** *** Greedy repetition *)

Section Star.
Variable cl : cclass.
Variable k : nat -> js_string -> option captures.

(** Where every shorter remainder makes the continuation fail, the
    repetition matches nothing. *)
Lemma star_stuck (u : js_string) (i : nat) :
  (forall j v w, u = v ++ w -> v <> [] -> k j w = None) ->
  star cl k i u = k i u.
Proof.
  revert i; induction u as [|c u IH]; intros i Hdead; simpl; [reflexivity|].
  assert (Hu : star cl k (S i) u = None).
  { rewrite IH.
    - apply (Hdead (S i) [c] u); [reflexivity | discriminate].
    - intros j v w -> Hv. apply (Hdead j (c :: v) w); [reflexivity | discriminate]. }
  rewrite Hu. destruct (accepts cl c); reflexivity.
Qed.

(** At the end of a run, or before a character the class refuses,
    the repetition matches nothing. *)
Lemma star_stop (r : js_string) (i : nat) :
  match r with
  | [] => true
  | c :: _ => negb (accepts cl c)
  end = true ->
  star cl k i r = k i r.
Proof.
  destruct r as [|c r]; simpl; [reflexivity|].
  intros H. apply negb_true_iff in H. rewrite H. reflexivity.
Qed.

(** A match found after a run of accepted characters is the match
    of the repetition: the longer run is tried first. *)
Lemma star_run (p u : js_string) (i : nat) (R : captures) :
  forallb (accepts cl) p = true ->
  star cl k (i + length p) u = Some R ->
  star cl k i (p ++ u) = Some R.
Proof.
  revert i; induction p as [|c p IH]; intros i Hp Hu; simpl in *.
  - rewrite Nat.add_0_r in Hu. exact Hu.
  - apply andb_true_iff in Hp as [Hc Hp]. rewrite Hc.
    rewrite (IH (S i) Hp); [reflexivity|].
    rewrite <- Hu. f_equal. lia.
Qed.

(** Every match of the repetition comes from a run of accepted
    characters followed by a match of the continuation. *)
Lemma star_inv (s : js_string) (i : nat) (R : captures) :
  star cl k i s = Some R ->
  exists p u, s = p ++ u /\ forallb (accepts cl) p = true
              /\ k (i + length p) u = Some R.
Proof.
  revert i; induction s as [|c s IH]; intros i H; simpl in H.
  - exists [], []. simpl. rewrite Nat.add_0_r. auto.
  - destruct (accepts cl c) eqn:Hc.
    + destruct (star cl k (S i) s) as [R'|] eqn:Hs.
      * inversion H; subst R'. destruct (IH _ Hs) as (p & u & -> & Hp & Hk).
        exists (c :: p), u. simpl. rewrite Hc, Hp.
        replace (i + S (length p)) with (S i + length p) by lia. auto.
      * exists [], (c :: s). simpl. rewrite Nat.add_0_r. auto.
    + exists [], (c :: s). simpl. rewrite Nat.add_0_r. auto.
Qed.

(** With a continuation that never fails, the repetition takes the
    longest run. *)
Lemma star_longest (s : js_string) (i : nat) :
  (forall j u, k j u <> None) ->
  exists t r, s = t ++ r /\ forallb (accepts cl) t = true
              /\ match r with
                 | [] => true
                 | c :: _ => negb (accepts cl c)
                 end = true
              /\ star cl k i s = k (i + length t) r.
Proof.
  intros Hk. revert i; induction s as [|c s IH]; intros i; simpl.
  - exists [], []. simpl. rewrite Nat.add_0_r. auto.
  - destruct (accepts cl c) eqn:Hc.
    + destruct (IH (S i)) as (t & r & -> & Ht & Hr & Hs).
      exists (c :: t), r. simpl. rewrite Hc, Ht, Hs.
      replace (i + S (length t)) with (S i + length t) by lia.
      destruct (k (S i + length t) r) eqn:E; [auto | destruct (Hk _ _ E)].
    + exists [], (c :: s). simpl. rewrite Hc, Nat.add_0_r. auto.
Qed.
End Star.

(** The last repetition of the pattern, before [accept], never fails. *)
Lemma star_accept (cl : cclass) (R : captures) (s : js_string) (i : nat) :
  star cl (fun _ _ => Some R) i s = Some R.
Proof.
  revert i; induction s as [|c s IH]; intros i; simpl; [reflexivity|].
  rewrite IH. destruct (accepts cl c); reflexivity.
Qed.

(** *** Sequences of character classes *)

Lemma exec_seq_match (sh : list cclass) (m rest : js_string) (i : nat)
      (caps : captures) (k : cont) :
  shape_matches sh m = true ->
  exec (seq sh) i (m ++ rest) caps k = k (i + length m) rest caps.
Proof.
  revert m i; induction sh as [|cl sh IH]; intros [|c m] i H; simpl in *;
    try discriminate.
  - rewrite Nat.add_0_r. reflexivity.
  - apply andb_true_iff in H as [Hc Hm]. rewrite Hc, (IH _ _ Hm).
    f_equal. lia.
Qed.

Lemma exec_seq_fail (sh : list cclass) (u : js_string) (i : nat)
      (caps : captures) (k : cont) :
  shape_prefix sh u = false ->
  exec (seq sh) i u caps k = None.
Proof.
  revert u i; induction sh as [|cl sh IH]; intros [|c u] i H; simpl in *;
    try discriminate; try reflexivity.
  destruct (accepts cl c); simpl in H; [apply IH; exact H | reflexivity].
Qed.

Lemma exec_seq_inv (sh : list cclass) (u : js_string) (i : nat)
      (caps R : captures) (k : cont) :
  exec (seq sh) i u caps k = Some R ->
  exists m rest, u = m ++ rest /\ shape_matches sh m = true
                 /\ k (i + length m) rest caps = Some R.
Proof.
  revert u i; induction sh as [|cl sh IH]; intros u i H; simpl in H.
  - exists [], u. simpl. rewrite Nat.add_0_r. auto.
  - destruct u as [|c u]; [discriminate|].
    destruct (accepts cl c) eqn:Hc; [|discriminate].
    destruct (IH _ _ H) as (m & rest & -> & Hm & Hk).
    exists (c :: m), rest. simpl. rewrite Hc, Hm.
    replace (i + S (length m)) with (S i + length m) by lia. auto.
Qed.

Lemma shape_matches_prefix (sh : list cclass) (m rest : js_string) :
  shape_matches sh m = true -> shape_prefix sh (m ++ rest) = true.
Proof.
  revert m; induction sh as [|cl sh IH]; intros [|c m] H; simpl in *;
    try discriminate; try reflexivity.
  apply andb_true_iff in H as [Hc Hm]. rewrite Hc, (IH _ Hm). reflexivity.
Qed.

(** *** The markers of group 1 *)

Lemma exec_Alt (r1 r2 : regex) (i : nat) (s : js_string) (caps : captures) (k : cont) :
  exec (Alt r1 r2) i s caps k
  = match exec r1 i s caps k with
    | Some m => Some m
    | None => exec r2 i s caps k
    end.
Proof. reflexivity. Qed.

(** The alternatives begin with six different characters: a text of
    one shape does not begin as another shape does. *)
Ltac first_char H :=
  match type of H with
  | shape_matches _ ?m = true =>
      destruct m as [|?c ?m]; [discriminate H|];
      let Hc := fresh "Hc" in
      pose proof H as Hc; simpl in Hc;
      apply andb_true_iff in Hc as [Hc _];
      apply N.eqb_eq in Hc; subst
  end.

Ltac skip_alternative :=
  rewrite exec_Alt, exec_seq_fail by reflexivity.

Lemma exec_marker_match (m rest : js_string) (i : nat) (caps R : captures) (k : cont) :
  is_marker m = true ->
  k (i + length m) rest caps = Some R ->
  exec marker i (m ++ rest) caps k = Some R.
Proof.
  unfold is_marker, marker_shapes, marker. cbn [existsb].
  rewrite !orb_true_iff. intros H Hk.
  destruct H as [H|[H|[H|[H|[H|[H|H]]]]]]; [..|discriminate H];
    pose proof (exec_seq_match _ _ rest i caps k H) as E; rewrite Hk in E;
    first_char H; repeat skip_alternative;
    first [ rewrite exec_Alt, E; reflexivity | exact E ].
Qed.

Lemma exec_marker_fail (u : js_string) (i : nat) (caps : captures) (k : cont) :
  begins_with_marker u = false ->
  exec marker i u caps k = None.
Proof.
  unfold begins_with_marker, marker_shapes, marker. cbn [existsb].
  rewrite !orb_false_iff. intros (H1 & H2 & H3 & H4 & H5 & H6 & _).
  rewrite !exec_Alt, !exec_seq_fail by assumption. reflexivity.
Qed.

Lemma exec_marker_inv (u : js_string) (i : nat) (caps R : captures) (k : cont) :
  exec marker i u caps k = Some R ->
  exists m rest, u = m ++ rest /\ is_marker m = true
                 /\ k (i + length m) rest caps = Some R.
Proof.
  unfold marker, is_marker, marker_shapes. cbn [existsb]. rewrite !exec_Alt.
  intros H.
  repeat match type of H with
         | match exec (seq ?sh) i u caps k with _ => _ end = Some R =>
             destruct (exec (seq sh) i u caps k) eqn:E;
             [ inversion H; subst; clear H;
               destruct (exec_seq_inv _ _ _ _ _ _ E) as (m & rest & -> & Hm & Hk);
               exists m, rest; rewrite Hm, ?orb_true_r; auto
             | clear E ]
         end.
  destruct (exec_seq_inv _ _ _ _ _ _ H) as (m & rest & -> & Hm & Hk).
  exists m, rest. rewrite Hm, ?orb_true_r. auto.
Qed.

(** *** The whole pattern *)

Lemma accepts_identifier_char (c : N) :
  accepts (CNot (units "#&?")) c = negb (delimiter c).
Proof. reflexivity. Qed.

Lemma after_prefix_match (m t r : js_string) (j : nat) :
  is_marker m = true ->
  forallb (fun c => negb (delimiter c)) t = true ->
  ends_identifier r = true ->
  exists R, after_prefix j (m ++ t ++ r) = Some R /\ R 2 = Some t.
Proof.
  intros Hm Ht Hr. unfold after_prefix. cbn [exec].
  eexists. split.
  - apply exec_marker_match; [exact Hm|].
    unfold identifier. cbn [exec].
    apply star_run.
    + exact Ht.
    + rewrite star_stop.
      * unfold accept. apply star_accept.
      * destruct r as [|c r]; [reflexivity|].
        rewrite accepts_identifier_char, negb_involutive. exact Hr.
  - unfold capture. simpl.
    replace (j + length m + length t - (j + length m)) with (length t) by lia.
    rewrite firstn_app, Nat.sub_diag, firstn_all. simpl. rewrite app_nil_r. reflexivity.
Qed.

Lemma after_prefix_fail (u : js_string) (j : nat) :
  begins_with_marker u = false -> after_prefix j u = None.
Proof.
  intros H. unfold after_prefix. cbn [exec]. apply exec_marker_fail, H.
Qed.

Lemma after_prefix_inv (u : js_string) (j : nat) (R : captures) :
  after_prefix j u = Some R ->
  exists m t r, u = m ++ t ++ r /\ is_marker m = true
                /\ forallb (fun c => negb (delimiter c)) t = true
                /\ ends_identifier r = true
                /\ R 2 = Some t.
Proof.
  unfold after_prefix. cbn [exec]. intros H.
  apply exec_marker_inv in H as (m & rest & -> & Hm & H).
  unfold identifier in H. cbn [exec] in H.
  match type of H with
  | star ?cl ?k ?i ?s = _ =>
      destruct (star_longest cl k s i) as (t & r & -> & Ht & Hr & E)
  end.
  { intros j' u'. unfold accept. rewrite star_accept. discriminate. }
  rewrite E in H. unfold accept in H. rewrite star_accept in H.
  inversion H; subst R; clear H E.
  exists m, t, r. repeat split; [exact Hm | exact Ht | |].
  - destruct r as [|c r]; [reflexivity|].
    rewrite accepts_identifier_char, negb_involutive in Hr. exact Hr.
  - unfold capture. simpl.
    replace (j + length m + length t - (j + length m)) with (length t) by lia.
    rewrite firstn_app, Nat.sub_diag, firstn_all. simpl. rewrite app_nil_r. reflexivity.
Qed.

(** The pattern is anchored: it matches from index 0 or not at all. *)
Lemma exec_regExp (s : js_string) (i : nat) :
  exec regExp i s no_captures accept
  = if Nat.eqb i 0 then star CDot after_prefix i s else None.
Proof. reflexivity. Qed.

Lemma match_from_later (s : js_string) (i : nat) :
  match_from regExp (S i) s = None.
Proof.
  revert i; induction s as [|c s IH]; intros i; cbn [match_from];
    rewrite exec_regExp; simpl Nat.eqb; cbv iota; [reflexivity | apply IH].
Qed.

Lemma regex_match_regExp (s : js_string) :
  regex_match regExp s = star CDot after_prefix 0 s.
Proof.
  unfold regex_match. destruct s as [|c s]; cbn [match_from];
    rewrite exec_regExp; simpl Nat.eqb; cbv iota;
    destruct (star CDot after_prefix 0 _); try reflexivity.
  apply match_from_later.
Qed.

Lemma marker_free_suffix (u v w : js_string) :
  marker_free u = true -> u = v ++ w -> begins_with_marker w = false.
Proof.
  revert u; induction v as [|c v IH]; intros u Hu ->.
  - destruct w; cbn [marker_free app] in Hu; apply andb_true_iff in Hu as [Hu _];
      apply negb_true_iff in Hu; exact Hu.
  - cbn [marker_free app] in Hu. apply andb_true_iff in Hu as [_ Hu]. eapply IH; eauto.
Qed.

(** The identifier that follows the last marker of the first line. *)
Lemma getYouTubeId_last_marker (p m t r : js_string) :
  forallb (fun c => negb (line_terminator c)) p = true ->
  is_marker m = true ->
  forallb (fun c => negb (delimiter c)) t = true ->
  ends_identifier r = true ->
  marker_free (tl (m ++ t ++ r)) = true ->
  getYouTubeId (p ++ m ++ t ++ r)
  = if Nat.eqb (length t) 11 then Some t else None.
Proof.
  intros Hp Hm Ht Hr Hfree.
  destruct (after_prefix_match m t r (length p) Hm Ht Hr) as (R & HR & HR2).
  unfold getYouTubeId. rewrite regex_match_regExp.
  rewrite (star_run CDot after_prefix p (m ++ t ++ r) 0 R).
  - rewrite HR2. reflexivity.
  - exact Hp.
  - rewrite star_stuck; [exact HR|].
    intros j v w E Hv. apply after_prefix_fail.
    destruct v as [|c v]; [congruence|].
    rewrite E in Hfree. simpl in Hfree.
    eapply marker_free_suffix; eauto.
Qed.

(** Whatever is extracted is an 11-character run that follows a marker
    on the first line and stops at a delimiter or at the end. *)
Lemma getYouTubeId_inv (url t : js_string) :
  getYouTubeId url = Some t ->
  exists p m r, url = p ++ m ++ t ++ r
                /\ forallb (fun c => negb (line_terminator c)) p = true
                /\ is_marker m = true
                /\ length t = 11
                /\ forallb (fun c => negb (delimiter c)) t = true
                /\ ends_identifier r = true.
Proof.
  unfold getYouTubeId. rewrite regex_match_regExp.
  destruct (star CDot after_prefix 0 url) as [R|] eqn:E; [|discriminate].
  apply star_inv in E as (p & u & -> & Hp & E).
  apply after_prefix_inv in E as (m & t' & r & -> & Hm & Ht & Hr & HR).
  rewrite HR. destruct (Nat.eqb (length t') 11) eqn:Hlen; [|discriminate].
  intros H; inversion H; subst t'. apply Nat.eqb_eq in Hlen.
  exists p, m, r. auto 10.
Qed.

(** C4 (amended).  Let a text consist of a first part without line
    terminator, a marker (one of [youtu.be/] with any character for the
    dot, [v/], [u/], a word character and [/], [embed/], [watch?v=],
    [&v=]), 11 characters none of which is [#], [&] or [?], and a rest
    that is empty or begins with one of these three, with no other
    marker beginning after the first character of the marker: then the
    extraction returns the 11 characters.  Whatever the extraction
    returns is such a run of 11 characters behind such a marker; for
    any other text it returns nothing, and [handleGenerate] then sets
    the error "Please enter a valid YouTube URL", calls no provider and
    changes nothing else. *)
Theorem getYouTubeId_spec :
  (forall p m t r : js_string,
      forallb (fun c => negb (line_terminator c)) p = true ->
      is_marker m = true ->
      length t = 11 ->
      forallb (fun c => negb (delimiter c)) t = true ->
      ends_identifier r = true ->
      marker_free (tl (m ++ t ++ r)) = true ->
      getYouTubeId (p ++ m ++ t ++ r) = Some t)
  /\
  (forall url t : js_string,
      getYouTubeId url = Some t ->
      exists p m r, url = p ++ m ++ t ++ r
                    /\ forallb (fun c => negb (line_terminator c)) p = true
                    /\ is_marker m = true
                    /\ length t = 11
                    /\ forallb (fun c => negb (delimiter c)) t = true
                    /\ ends_identifier r = true)
  /\
  (forall (env : Environment) (s : App),
      getYouTubeId (videoUrl s) = None ->
      handleGenerate env s
      = ([], setError (Some "Please enter a valid YouTube URL"%string) s)).
Proof.
  split; [|split].
  - intros p m t r Hp Hm Hlen Ht Hr Hfree.
    rewrite getYouTubeId_last_marker by assumption.
    rewrite Hlen. reflexivity.
  - apply getYouTubeId_inv.
  - intros env s H. unfold handleGenerate. rewrite H. reflexivity.
Qed.

Lemma getYouTubeId_spec_witness :
  getYouTubeId (units "https://www.youtube.com/" ++ units "watch?v="
                ++ units "sSsTR8qqDl4" ++ units "&t=42s")
  = Some (units "sSsTR8qqDl4")
  /\ (exists p m r,
         units "https://youtu.be/dQw4w9WgXcQ" = p ++ m ++ units "dQw4w9WgXcQ" ++ r
         /\ forallb (fun c => negb (line_terminator c)) p = true
         /\ is_marker m = true
         /\ length (units "dQw4w9WgXcQ") = 11
         /\ forallb (fun c => negb (delimiter c)) (units "dQw4w9WgXcQ") = true
         /\ ends_identifier r = true)
  /\ handleGenerate (sample_env []) (setVideoUrl (units "not a link") initial_App)
     = ([], setError (Some "Please enter a valid YouTube URL"%string)
                     (setVideoUrl (units "not a link") initial_App)).
Proof.
  split; [|split].
  - apply (proj1 getYouTubeId_spec); reflexivity.
  - apply (proj1 (proj2 getYouTubeId_spec)). reflexivity.
  - apply (proj2 (proj2 getYouTubeId_spec)). reflexivity.
Defined.

(** C4, as stated, fails in both directions.  A link of the shape
    [youtu.be/] that holds an 11-character identifier and ends with a
    slash yields nothing; and a link in which none of the five listed
    shapes occurs, the identifier being the second parameter of the
    query, yields its identifier. *)
Lemma getYouTubeId_counterexample :
  (exists p m t r,
      units "https://youtu.be/dQw4w9WgXcQ/" = p ++ m ++ t ++ r
      /\ is_listed_marker m = true
      /\ t = units "dQw4w9WgXcQ"
      /\ length t = 11
      /\ getYouTubeId (units "https://youtu.be/dQw4w9WgXcQ/") = None)
  /\
  (has_listed_marker (units "https://www.youtube.com/watch?feature=share&v=dQw4w9WgXcQ")
   = false
   /\ getYouTubeId (units "https://www.youtube.com/watch?feature=share&v=dQw4w9WgXcQ")
      = Some (units "dQw4w9WgXcQ")).
Proof.
  split.
  - exists (units "https://"), (units "youtu.be/"), (units "dQw4w9WgXcQ"), (units "/").
    repeat split.
  - split; reflexivity.
Qed.

(** ** The scheduler: [handleTimeUpdate] *)

Lemma Qlt_bool_iff (x y : Q) : Qlt_bool x y = true <-> (x < y)%Q.
Proof.
  unfold Qlt_bool. rewrite negb_true_iff. split.
  - intros H. apply Qnot_le_lt. intros Hle.
    apply Qle_bool_iff in Hle. congruence.
  - intros H. destruct (Qle_bool y x) eqn:E; [|reflexivity].
    apply Qle_bool_iff in E. exfalso. eapply Qlt_not_le; eauto.
Qed.

Lemma pending_due (answered : gset string) (t : Q) (q : QuizQuestion) :
  pending answered t q = true <-> due answered t q.
Proof.
  unfold pending, due. rewrite andb_true_iff, Qlt_bool_iff, negb_true_iff.
  rewrite bool_decide_eq_false. reflexivity.
Qed.



(** *** The order [handleGenerate] puts the questions in *)

Lemma byTimestamp_after (a b : QuizQuestion) :
  Qlt_bool 0 (byTimestamp a b) = true -> earlier b a.
Proof.
  rewrite Qlt_bool_iff. unfold byTimestamp, earlier. intros H.
  apply Qlt_le_weak. apply (Qplus_lt_l _ _ (- timestamp b)).
  rewrite Qplus_opp_r. exact H.
Qed.

Lemma byTimestamp_not_after (a b : QuizQuestion) :
  Qlt_bool 0 (byTimestamp a b) = false -> earlier a b.
Proof.
  intros H. unfold earlier. apply Qnot_lt_le. intros Hlt.
  assert (Qlt_bool 0 (byTimestamp a b) = true); [|congruence].
  apply Qlt_bool_iff. unfold byTimestamp.
  apply (Qplus_lt_l _ _ (timestamp b)). ring_simplify. exact Hlt.
Qed.

Lemma earlier_trans (a b c : QuizQuestion) : earlier a b -> earlier b c -> earlier a c.
Proof. unfold earlier. apply Qle_trans. Qed.

Lemma insert_sorted_Permutation {A : Type} (cmp : A -> A -> Q) (x : A) (l : list A) :
  Permutation (insert_sorted cmp x l) (x :: l).
Proof.
  induction l as [|y l IH]; simpl; [reflexivity|].
  destruct (Qlt_bool 0 (cmp x y)); [|reflexivity].
  rewrite IH. apply perm_swap.
Qed.


Lemma insert_sorted_byTimestamp (x : QuizQuestion) (l : list QuizQuestion) :
  StronglySorted earlier l -> StronglySorted earlier (insert_sorted byTimestamp x l).
Proof.
  induction 1 as [|y l Hl IH Hy]; simpl.
  - repeat constructor.
  - destruct (Qlt_bool 0 (byTimestamp x y)) eqn:E.
    + constructor; [exact IH|].
      apply (Permutation_Forall (Permutation_sym (insert_sorted_Permutation _ x l))).
      constructor; [apply byTimestamp_after, E | exact Hy].
    + apply byTimestamp_not_after in E.
      constructor; [constructor; assumption|].
      constructor; [exact E|].
      eapply Forall_impl; [exact Hy|]. intros z Hz. eapply earlier_trans; eauto.
Qed.

Lemma sort_byTimestamp_sorted (l : list QuizQuestion) :
  StronglySorted earlier (sort byTimestamp l).
Proof.
  induction l as [|x l IH]; simpl; [constructor|].
  apply insert_sorted_byTimestamp, IH.
Qed.



Lemma handleGenerate_failure (env : Environment) (s : App) (message : string)
      (calls : list Prompt) (vid : js_string) :
  getYouTubeId (videoUrl s) = Some vid ->
  generateQuestions env (topic s) (transcript s) (Some 15%Q) = (calls, inl message) ->
  handleGenerate env s
  = (calls,
     setIsGenerating false
       (setError (Some (if truthy message then message
                        else "Failed to generate quiz. Please check your API key."%string))
          (setCurrentVideoId vid (setError None (setIsGenerating true s))))).
Proof.
  intros Hid Hgen. unfold handleGenerate. rewrite Hid, Hgen. reflexivity.
Qed.



(** *** A tick while a question is active *)

Lemma handleTimeUpdate_found (qs : list QuizQuestion) (answered : gset string)
      (t : Q) (s : App) (q : QuizQuestion) :
  find (pending answered t) qs = Some q ->
  handleTimeUpdate qs answered t s
  = setActiveQuestion (Some q) (setShouldPause true (setPlaybackTime t s)).
Proof. intros H. unfold handleTimeUpdate. rewrite H. reflexivity. Qed.

Lemma handleTimeUpdate_not_found (qs : list QuizQuestion) (answered : gset string)
      (t : Q) (s : App) :
  find (pending answered t) qs = None ->
  handleTimeUpdate qs answered t s = setPlaybackTime t s.
Proof. intros H. unfold handleTimeUpdate. rewrite H. reflexivity. Qed.

(** A question alone in the list, at 10 seconds: whether it is pending
    at the times of the scenario. *)
Lemma pending_at_10 (answered : gset string) (q : QuizQuestion) :
  (timestamp q == 10)%Q -> id q ∉ answered ->
  pending answered 0 q = false /\ pending answered 5 q = false
  /\ pending answered 10 q = true /\ pending answered 10.4 q = true.
Proof.
  intros Hts Hid.
  assert (W : forall t, pending answered t q = Qlt_bool (Qabs (t - 10)) 1.5).
  { intros t. unfold pending.
    rewrite (bool_decide_eq_false_2 _ Hid), andb_true_r.
    unfold Qlt_bool. f_equal. apply Qleb_comp; [reflexivity|].
    rewrite Hts. reflexivity. }
  rewrite !W. repeat split; reflexivity.
Qed.

(** C2 (amended). [handleTimeUpdate] has no regard for a question being
    active: every tick looks for a due question again.  While a question
    is active and the pause is requested, a tick that finds a due
    question makes that one the active question, which changes nothing
    if it is the same one, and a tick that finds none leaves the active
    question as it is; the pause stays requested.  With one unanswered
    question at 10 seconds and the ticks 0, 5, 10, 10.4, the active
    question is null after 0 and after 5, becomes the question on the
    tick at 10 and is the question after 10.4. *)
Theorem handleTimeUpdate_while_active :
  (forall (qs : list QuizQuestion) (answered : gset string) (t : Q) (s : App)
          (q : QuizQuestion),
      activeQuestion s = Some q ->
      shouldPause s = true ->
      let s' := handleTimeUpdate qs answered t s in
      shouldPause s' = true
      /\ activeQuestion s' = match find (pending answered t) qs with
                             | Some q' => Some q'
                             | None => Some q
                             end)
  /\
  (forall (q : QuizQuestion) (answered : gset string) (s : App),
      (timestamp q == 10)%Q ->
      id q ∉ answered ->
      activeQuestion s = None ->
      let tick := handleTimeUpdate [q] answered in
      activeQuestion (tick 0%Q s) = None
      /\ activeQuestion (tick 5%Q (tick 0%Q s)) = None
      /\ activeQuestion (tick 10%Q (tick 5%Q (tick 0%Q s))) = Some q
      /\ activeQuestion (tick 10.4%Q (tick 10%Q (tick 5%Q (tick 0%Q s)))) = Some q)
  /\
  (let q := sample_question "q1" 10 in
   map (fun s => activeQuestion (app s))
       (trace (sample_env [q]) [Tick 0; Tick 5; Tick 10; Tick 10.4] (playing [q]))
   = [None; None; Some q; Some q]).
Proof.
  split; [|split].
  - intros qs answered t s q Hact Hpause s'. subst s'. unfold handleTimeUpdate.
    destruct (find (pending answered t) qs); simpl; auto.
  - intros q answered s Hts Hid Hact tick. subst tick.
    destruct (pending_at_10 answered q Hts Hid) as (H0 & H5 & H10 & H104).
    unfold handleTimeUpdate. simpl find. rewrite H0, H5, H10, H104. simpl. auto.
  - vm_compute. reflexivity.
Qed.

Lemma handleTimeUpdate_while_active_witness :
  let q1 := sample_question "q1" 10 in
  let q2 := sample_question "q2" 12 in
  let s := setActiveQuestion (Some q1) (setShouldPause true initial_App) in
  (shouldPause (handleTimeUpdate [q1; q2] ∅ 11.6 s) = true
   /\ activeQuestion (handleTimeUpdate [q1; q2] ∅ 11.6 s)
      = match find (pending ∅ 11.6) [q1; q2] with
        | Some q' => Some q'
        | None => Some q1
        end)
  /\
  (let tick := handleTimeUpdate [q1] ∅ in
   activeQuestion (tick 0%Q initial_App) = None
   /\ activeQuestion (tick 5%Q (tick 0%Q initial_App)) = None
   /\ activeQuestion (tick 10%Q (tick 5%Q (tick 0%Q initial_App))) = Some q1
   /\ activeQuestion (tick 10.4%Q (tick 10%Q (tick 5%Q (tick 0%Q initial_App))))
      = Some q1).
Proof.
  intros q1 q2 s. split.
  - apply (proj1 handleTimeUpdate_while_active [q1; q2] ∅ 11.6%Q s q1); reflexivity.
  - apply (proj1 (proj2 handleTimeUpdate_while_active) q1 ∅ initial_App).
    + reflexivity.
    + apply not_elem_of_empty.
    + reflexivity.
Defined.

(** C2, as stated, fails: with unanswered questions at 10 and at 12
    seconds, the tick at 11.2 makes the first one the active question,
    and the tick at 11.6, with nothing completed in between, replaces it
    by the second one. *)
Lemma active_question_replaced_by_tick :
  let q1 := sample_question "q1" 10 in
  let q2 := sample_question "q2" 12 in
  let env := sample_env [q1; q2] in
  let s1 := step env (Tick 11.2) (playing [q1; q2]) in
  let s2 := step env (Tick 11.6) s1 in
  activeQuestion (app s1) = Some q1
  /\ shouldPause (app s1) = true
  /\ score (app s2) = mkScore 0 0
  /\ activeQuestion (app s2) = Some q2.
Proof. vm_compute. auto. Qed.

(** ** Ticks and the set of answered questions *)

(** Given the set of answered identifiers of the moment,
    [handleTimeUpdate] does not make an answered question active. *)
Lemma handleTimeUpdate_skips_answered (qs : list QuizQuestion) (answered : gset string)
      (t : Q) (s : App) (q : QuizQuestion) :
  id q ∈ answered ->
  activeQuestion s <> Some q ->
  activeQuestion (handleTimeUpdate qs answered t s) <> Some q.
Proof.
  intros Hin Hact. unfold handleTimeUpdate.
  destruct (find (pending answered t) qs) as [q'|] eqn:Hfind; simpl; [|exact Hact].
  intros E; inversion E; subst q'.
  apply find_some in Hfind as [_ Hp]. apply pending_due in Hp as [_ Hp]. contradiction.
Qed.

(** The player keeps the handler it was mounted with: no event gives
    the timer of a mounted player another list of questions or another
    set of answered identifiers. *)
Lemma render_YouTubePlayer_keeps_handler (shouldPause : bool) (onPaused : nat)
      (p : YouTubePlayer) :
  let p' := fst (render_YouTubePlayer shouldPause onPaused p) in
  onTimeUpdate_questions p' = onTimeUpdate_questions p
  /\ onTimeUpdate_answeredQuestionIds p' = onTimeUpdate_answeredQuestionIds p.
Proof.
  unfold render_YouTubePlayer. case_bool_decide; simpl; auto.
Qed.

Lemma update_App_keeps_handler (a : App) (s : Session) (p p' : YouTubePlayer) :
  player s = Some p ->
  player (update_App a s) = Some p' ->
  onTimeUpdate_questions p' = onTimeUpdate_questions p
  /\ onTimeUpdate_answeredQuestionIds p' = onTimeUpdate_answeredQuestionIds p.
Proof.
  intros Hp. unfold update_App, render_App.
  destruct (same_state a (app s)); [intros H; rewrite Hp in H; inversion H; auto|].
  rewrite Hp. case_bool_decide; simpl; [|discriminate].
  pose proof (render_YouTubePlayer_keeps_handler (shouldPause a) (S (renders s)) p) as K.
  destruct (render_YouTubePlayer (shouldPause a) (S (renders s)) p) as [p0 cs].
  simpl. intros E; inversion E; subst p0. exact K.
Qed.

Lemma step_keeps_handler (env : Environment) (e : Event) (s : Session)
      (p p' : YouTubePlayer) :
  player s = Some p ->
  player (step env e s) = Some p' ->
  onTimeUpdate_questions p' = onTimeUpdate_questions p
  /\ onTimeUpdate_answeredQuestionIds p' = onTimeUpdate_answeredQuestionIds p.
Proof.
  intros Hp.
  assert (Same : player s = Some p' ->
                 onTimeUpdate_questions p' = onTimeUpdate_questions p
                 /\ onTimeUpdate_answeredQuestionIds p' = onTimeUpdate_answeredQuestionIds p).
  { intros H. rewrite Hp in H. inversion H. auto. }
  destruct e; simpl;
    repeat match goal with
           | |- context [bool_decide ?P] => destruct (bool_decide P)
           | |- context [negb (isGenerating ?a)] => destruct (isGenerating a)
           end; simpl;
    try exact Same; try (apply update_App_keeps_handler; exact Hp).
  - (* PlayerReady *)
    rewrite Hp.
    pose proof (render_YouTubePlayer_keeps_handler
                  (shouldPause (app s)) (snd (pause_deps p))
                  (mkYouTubePlayer (onTimeUpdate_questions p)
                                   (onTimeUpdate_answeredQuestionIds p)
                                   true (pause_deps p))) as K.
    destruct (render_YouTubePlayer _ _ _) as [p0 cs]. simpl in *.
    intros H; inversion H; subst p0. exact K.
  - (* Tick *)
    rewrite Hp. destruct (isReady p); [|exact Same].
    apply update_App_keeps_handler; exact Hp.
  - (* SelectOption *)
    destruct (overlay s); [|exact Same].
    destruct (activeQuestion (app s)); [|exact Same].
    destruct (Nat.ltb index _); exact Same.
  - (* ClickContinue *)
    destruct (overlay s) as [o|]; [|exact Same].
    destruct (activeQuestion (app s)) as [q|]; [|exact Same].
    destruct (isSubmitted o); [|exact Same].
    destruct (handleContinue q o); [|exact Same].
    apply update_App_keeps_handler; exact Hp.
Qed.

(** *** What a tick does to a session *)

Lemma same_state_fields (a b : App) :
  same_state a b = true ->
  activeQuestion a = activeQuestion b
  /\ shouldPause a = shouldPause b
  /\ answeredQuestionIds a = answeredQuestionIds b
  /\ score a = score b.
Proof.
  unfold same_state. rewrite !andb_true_iff, !bool_decide_eq_true.
  intros H. decompose [and] H. auto.
Qed.

(** A setter call that changes nothing leaves the session alone;
    otherwise the new state is the state of the session. *)
Lemma update_App_fields (a : App) (s : Session) :
  activeQuestion (app (update_App a s)) = activeQuestion a
  /\ shouldPause (app (update_App a s)) = shouldPause a
  /\ answeredQuestionIds (app (update_App a s)) = answeredQuestionIds a
  /\ score (app (update_App a s)) = score a.
Proof.
  unfold update_App. destruct (same_state a (app s)) eqn:E.
  - apply same_state_fields in E as (-> & -> & -> & ->). auto.
  - unfold render_App.
    destruct (bool_decide (state a = PLAYING));
      [destruct (player s); simpl;
       [destruct (render_YouTubePlayer _ _ _)|]|]; simpl; auto.
Qed.

Lemma step_Tick (env : Environment) (t : Q) (s : Session) (p : YouTubePlayer) :
  player s = Some p ->
  isReady p = true ->
  step env (Tick t) s
  = update_App (handleTimeUpdate (onTimeUpdate_questions p)
                                 (onTimeUpdate_answeredQuestionIds p) t (app s)) s.
Proof. intros Hp Hr. simpl. rewrite Hp, Hr. reflexivity. Qed.

(** The question a tick makes active is the first one that is pending
    for the set of answered identifiers the player's handler holds,
    whatever the set of answered identifiers of the session is. *)
Lemma step_Tick_active (env : Environment) (t : Q) (s : Session) (p : YouTubePlayer)
      (q : QuizQuestion) :
  player s = Some p ->
  isReady p = true ->
  find (pending (onTimeUpdate_answeredQuestionIds p) t) (onTimeUpdate_questions p)
  = Some q ->
  activeQuestion (app (step env (Tick t) s)) = Some q
  /\ shouldPause (app (step env (Tick t) s)) = true
  /\ answeredQuestionIds (app (step env (Tick t) s)) = answeredQuestionIds (app s).
Proof.
  intros Hp Hr Hfind. rewrite (step_Tick env t s p Hp Hr).
  destruct (update_App_fields
              (handleTimeUpdate (onTimeUpdate_questions p)
                                (onTimeUpdate_answeredQuestionIds p) t (app s)) s)
    as (-> & -> & -> & _).
  rewrite (handleTimeUpdate_found _ _ _ _ _ Hfind). simpl. auto.
Qed.

(** A player is mounted with the handler of the render that mounts it. *)
Lemma render_App_mounts (a : App) (s : Session) :
  player s = None ->
  state a = PLAYING ->
  exists p, player (render_App a s) = Some p
            /\ onTimeUpdate_questions p = questions a
            /\ onTimeUpdate_answeredQuestionIds p = answeredQuestionIds a
            /\ isReady p = false.
Proof.
  intros Hp Hs. unfold render_App. rewrite Hp, Hs. simpl.
  eexists. split; [reflexivity|]. simpl. auto.
Qed.

(** *** The handler of the timer, in every session *)

Lemma initial_Session_invariant : session_invariant initial_Session.
Proof.
  split; [discriminate|]. intros _. simpl. repeat split. discriminate.
Qed.

Lemma update_App_invariant (a : App) (s : Session) :
  session_invariant s ->
  (state a <> PLAYING -> answeredQuestionIds a = ∅) ->
  (player s = None -> answeredQuestionIds a = ∅) ->
  session_invariant (update_App a s).
Proof.
  intros [HS HN] Hsetup Hmount. unfold update_App.
  destruct (same_state a (app s)); [split; assumption|].
  unfold render_App. case_bool_decide as Hst; simpl.
  - destruct (player s) as [p|] eqn:Hp.
    + destruct (HS p eq_refl) as (Hans & Hdeps & _).
      unfold render_YouTubePlayer. case_bool_decide; simpl.
      * split; [|discriminate]. intros p' E; inversion E; subst p'.
        simpl. repeat split; auto; lia.
      * split; [|discriminate]. intros p' E; inversion E; subst p'.
        simpl. repeat split; auto.
    + simpl. split; [|discriminate].
      intros p' E; inversion E; subst p'. simpl. auto.
  - split; [discriminate|]. intros _. simpl. auto.
Qed.

Lemma handleGenerate_answeredQuestionIds (env : Environment) (a : App) :
  answeredQuestionIds (snd (handleGenerate env a)) = answeredQuestionIds a.
Proof.
  unfold handleGenerate. destruct (getYouTubeId (videoUrl a)); [|reflexivity].
  destruct (generateQuestions env (topic a) (transcript a) (Some 15%Q)) as [calls [m|qs]];
    reflexivity.
Qed.

Lemma handleTimeUpdate_state (qs : list QuizQuestion) (answered : gset string)
      (t : Q) (a : App) :
  state (handleTimeUpdate qs answered t a) = state a.
Proof. unfold handleTimeUpdate. destruct (find _ qs); reflexivity. Qed.

Lemma handleQuestionComplete_state (active : option QuizQuestion) (b : bool) (a : App) :
  state (handleQuestionComplete active b a) = state a.
Proof. destruct active; reflexivity. Qed.

Lemma step_invariant (env : Environment) (e : Event) (s : Session) :
  session_invariant s -> session_invariant (step env e s).
Proof.
  intros Inv. pose proof Inv as [HS HN].
  assert (Hsetup : state (app s) <> PLAYING -> answeredQuestionIds (app s) = ∅).
  { intros Hst. destruct (player s) as [p|] eqn:Hp.
    - destruct (HS p eq_refl) as (_ & _ & E). contradiction.
    - apply HN. reflexivity. }
  destruct e; simpl.
  - (* EditVideoUrl *)
    case_bool_decide as Hst; [|exact Inv].
    apply update_App_invariant; [exact Inv | |]; intros _; apply Hsetup; congruence.
  - (* EditTopic *)
    case_bool_decide as Hst; [|exact Inv].
    apply update_App_invariant; [exact Inv | |]; intros _; apply Hsetup; congruence.
  - (* EditTranscript *)
    case_bool_decide as Hst; [|exact Inv].
    apply update_App_invariant; [exact Inv | |]; intros _; apply Hsetup; congruence.
  - (* ClickStart *)
    case_bool_decide as Hst; simpl; [|exact Inv].
    destruct (isGenerating (app s)); simpl; [exact Inv|].
    apply update_App_invariant; [exact Inv | |]; intros _;
      rewrite handleGenerate_answeredQuestionIds; apply Hsetup; congruence.
  - (* PlayerReady *)
    destruct (player s) as [p|] eqn:Hp; [|exact Inv].
    destruct (HS p eq_refl) as (Hans & Hdeps & Hst).
    unfold render_YouTubePlayer. case_bool_decide; simpl;
      (split; [|discriminate]); intros p' E; inversion E; subst p'; simpl; auto.
  - (* Tick *)
    destruct (player s) as [p|] eqn:Hp; [|exact Inv].
    destruct (isReady p); [|exact Inv].
    destruct (HS p eq_refl) as (_ & _ & Hst).
    apply update_App_invariant; [exact Inv | | rewrite Hp; discriminate].
    rewrite handleTimeUpdate_state. contradiction.
  - (* SelectOption *)
    destruct (overlay s) as [o|] eqn:Ho; [|exact Inv].
    destruct (activeQuestion (app s)); [|exact Inv].
    destruct (Nat.ltb index _); [|exact Inv].
    split; simpl; [exact HS|].
    intros Hp. destruct (HN Hp) as (E & _). congruence.
  - (* ClickContinue *)
    destruct (overlay s) as [o|] eqn:Ho; [|exact Inv].
    destruct (activeQuestion (app s)) as [q|]; [|exact Inv].
    destruct (isSubmitted o); [|exact Inv].
    destruct (handleContinue q o); [|exact Inv].
    assert (Hp : player s <> None).
    { intros Hp. destruct (HN Hp) as (E & _). congruence. }
    destruct (player s) as [p|] eqn:Hp'; [|congruence].
    destruct (HS p eq_refl) as (_ & _ & Hst).
    apply update_App_invariant; [exact Inv | | rewrite Hp'; discriminate].
    rewrite handleQuestionComplete_state. contradiction.
  - (* ClickExit *)
    case_bool_decide as Hst; [|exact Inv].
    apply update_App_invariant; [exact Inv | |]; intros _; reflexivity.
Qed.

Lemma run_invariant (env : Environment) (events : list Event) (s : Session) :
  session_invariant s -> session_invariant (run env events s).
Proof.
  revert s; induction events as [|e events IH]; intros s Inv; simpl; [exact Inv|].
  apply IH, step_invariant, Inv.
Qed.

(** In every session that the page can reach, with whatever provider,
    the handler the timer calls holds the empty set of answered
    identifiers: its test for answered questions never excludes one. *)
Lemma timer_handler_answered_empty (env : Environment) (events : list Event)
      (p : YouTubePlayer) :
  player (run env events initial_Session) = Some p ->
  onTimeUpdate_answeredQuestionIds p = ∅.
Proof.
  intros Hp.
  destruct (run_invariant env events _ initial_Session_invariant) as [HS _].
  apply (HS p Hp).
Qed.

(** So an answered question is shown again by any tick within its
    window, if it is the first of the list there. *)
Lemma tick_shows_answered_question (env : Environment) (events : list Event)
      (p : YouTubePlayer) (t : Q) (q : QuizQuestion) :
  let s := run env events initial_Session in
  player s = Some p ->
  isReady p = true ->
  find (pending ∅ t) (onTimeUpdate_questions p) = Some q ->
  id q ∈ answeredQuestionIds (app s) ->
  activeQuestion (app (step env (Tick t) s)) = Some q
  /\ id q ∈ answeredQuestionIds (app (step env (Tick t) s)).
Proof.
  intros s Hp Hr Hfind Hin.
  pose proof (timer_handler_answered_empty env events p Hp) as Hempty.
  rewrite <- Hempty in Hfind.
  destruct (step_Tick_active env t s p q Hp Hr Hfind) as (-> & _ & ->). auto.
Qed.

(** C3. The timer of the player calls the [handleTimeUpdate] of the
    render in which the player was mounted, which holds the set of
    answered identifiers of that render.  With one question at 10
    seconds: the tick at 10 shows the question, the learner answers it
    and continues, which puts its identifier into the set of answered
    identifiers, and the next tick, the video still standing at 10,
    makes the answered question the active question again. *)
Theorem answered_question_active_again :
  let q := sample_question "q1" 10 in
  map (fun s => (activeQuestion (app s),
                 bool_decide (id q ∈ answeredQuestionIds (app s))))
      (trace (sample_env [q])
             [Tick 10; SelectOption 2; ClickContinue; Tick 10]
             (playing [q]))
  = [(Some q, false); (Some q, false); (None, true); (Some q, true)].
Proof. vm_compute. reflexivity. Qed.

(** ** The pause command *)

(** With a callback that keeps its identity, the effect runs when
    [shouldPause] or [isReady] changes and not otherwise. *)
Lemma render_YouTubePlayer_unchanged (shouldPause : bool) (onPaused : nat)
      (p : YouTubePlayer) :
  pause_deps p = (shouldPause, isReady p, onPaused) ->
  render_YouTubePlayer shouldPause onPaused p = (p, []).
Proof.
  intros H. unfold render_YouTubePlayer.
  rewrite bool_decide_eq_true_2; [reflexivity | symmetry; exact H].
Qed.

(** [App] hands the player a new callback in every render: while the
    pause is requested and the widget is ready, every render of [App]
    issues the pause command. *)
Lemma render_App_pauses_again (a : App) (s : Session) (p : YouTubePlayer) :
  player s = Some p ->
  snd (pause_deps p) <= renders s ->
  isReady p = true ->
  state a = PLAYING ->
  shouldPause a = true ->
  commands (render_App a s) = commands s ++ [PauseVideo; OnPaused].
Proof.
  intros Hp Hn Hready Hstate Hpause. unfold render_App.
  rewrite Hp, Hstate, Hpause. simpl.
  unfold render_YouTubePlayer. rewrite Hready.
  rewrite bool_decide_eq_false_2.
  - destruct (activeQuestion a); reflexivity.
  - destruct (pause_deps p) as [[b1 b2] n]. simpl in Hn.
    intros E; inversion E. lia.
Qed.

Lemma handleTimeUpdate_playbackTime (qs : list QuizQuestion) (answered : gset string)
      (t : Q) (a : App) :
  playbackTime (handleTimeUpdate qs answered t a) = t.
Proof. unfold handleTimeUpdate. destruct (find _ qs); reflexivity. Qed.

Lemma handleTimeUpdate_keeps_pause (qs : list QuizQuestion) (answered : gset string)
      (t : Q) (a : App) :
  shouldPause a = true -> shouldPause (handleTimeUpdate qs answered t a) = true.
Proof. unfold handleTimeUpdate. destruct (find _ qs); simpl; auto. Qed.

Lemma same_state_playbackTime (a b : App) :
  same_state a b = true -> (playbackTime a == playbackTime b)%Q.
Proof.
  unfold same_state. rewrite !andb_true_iff. intros [_ H].
  apply Qeq_bool_iff, H.
Qed.

(** In every session that the page can reach, while the pause is
    requested and the widget is ready, a tick that reports another time
    than the last one makes the player issue the pause command again. *)
Lemma tick_pauses_again (env : Environment) (events : list Event)
      (p : YouTubePlayer) (t : Q) :
  let s := run env events initial_Session in
  player s = Some p ->
  isReady p = true ->
  shouldPause (app s) = true ->
  ~ (t == playbackTime (app s))%Q ->
  shouldPause (app (step env (Tick t) s)) = true
  /\ commands (step env (Tick t) s) = commands s ++ [PauseVideo; OnPaused].
Proof.
  intros s Hp Hr Hpause Ht.
  destruct (run_invariant env events _ initial_Session_invariant) as [HS _].
  destruct (HS p Hp) as (_ & Hdeps & Hst).
  rewrite (step_Tick env t s p Hp Hr).
  set (a := handleTimeUpdate (onTimeUpdate_questions p)
                             (onTimeUpdate_answeredQuestionIds p) t (app s)).
  assert (Ha : shouldPause a = true) by (apply handleTimeUpdate_keeps_pause, Hpause).
  unfold update_App. destruct (same_state a (app s)) eqn:E.
  - apply same_state_playbackTime in E. subst a.
    rewrite handleTimeUpdate_playbackTime in E. contradiction.
  - split.
    + unfold render_App. simpl.
      destruct (bool_decide (state a = PLAYING));
        [destruct (player s); simpl;
         [destruct (render_YouTubePlayer _ _ _)|]|]; exact Ha.
    + apply (render_App_pauses_again a s p Hp Hdeps Hr); [|exact Ha].
      subst a. rewrite handleTimeUpdate_state. exact Hst.
Qed.

(** C5. With one question at 10 seconds and the ticks 0, 5, 10, 10.4
    on a player that is ready, the pause request goes from false to
    true once, on the tick at 10, and the player issues the pause
    command twice: on the tick at 10 and again on the tick at 10.4,
    each time followed by the paused signal. *)
Theorem pause_command_issued_twice :
  let q := sample_question "q1" 10 in
  let sessions := trace (sample_env [q]) [Tick 0; Tick 5; Tick 10; Tick 10.4]
                        (playing [q]) in
  shouldPause (app (playing [q])) = false
  /\ map (fun s => shouldPause (app s)) sessions = [false; false; true; true]
  /\ map commands sessions
     = [ []; [];
         [PauseVideo; OnPaused];
         [PauseVideo; OnPaused; PauseVideo; OnPaused] ].
Proof. vm_compute. auto. Qed.

(** ** The completion of a question *)




(** ** Generation *)

(** C7. Without a credential, [generateQuestions] throws the error
    "API Key is missing" and has made no call to the provider.  Whenever
    [generateQuestions] throws, for want of a credential or because the
    provider or its answer failed, [handleGenerate] leaves the session
    in SETUP, leaves the questions as they are, and sets the error to
    the message thrown, or to a fixed message when that one is empty. *)
Theorem generation_failure :
  (forall (env : Environment) (topic transcript : string) (durationMinutes : option Q),
      API_KEY env = None \/ API_KEY env = Some ""%string ->
      generateQuestions env topic transcript durationMinutes
      = ([], inl "API Key is missing"%string))
  /\
  (forall (env : Environment) (s : App) (calls : list Prompt) (message : string),
      state s = SETUP ->
      getYouTubeId (videoUrl s) <> None ->
      generateQuestions env (topic s) (transcript s) (Some 15%Q) = (calls, inl message) ->
      let s' := snd (handleGenerate env s) in
      state s' = SETUP
      /\ questions s' = questions s
      /\ error s' = Some (if truthy message then message
                          else "Failed to generate quiz. Please check your API key."%string)
      /\ isGenerating s' = false
      /\ fst (handleGenerate env s) = calls).
Proof.
  split.
  - intros env topic transcript d [H|H]; unfold generateQuestions; rewrite H; reflexivity.
  - intros env s calls message Hstate Hid Hgen.
    destruct (getYouTubeId (videoUrl s)) as [vid|] eqn:E; [clear Hid|congruence].
    rewrite (handleGenerate_failure env s message calls vid E Hgen). simpl. auto.
Qed.

Lemma generation_failure_witness :
  let env := mkEnvironment None (fun _ => Responds (Some "[]"%string)) (fun _ => inr []) in
  generateQuestions env "topic" "" None = ([], inl "API Key is missing"%string)
  /\ (let s' := snd (handleGenerate env initial_App) in
      state s' = SETUP
      /\ questions s' = questions initial_App
      /\ error s' = Some (if truthy "API Key is missing" then "API Key is missing"%string
                          else "Failed to generate quiz. Please check your API key."%string)
      /\ isGenerating s' = false
      /\ fst (handleGenerate env initial_App) = []).
Proof.
  intros env. split.
  - apply (proj1 generation_failure env "topic"%string ""%string None). left. reflexivity.
  - apply (proj2 generation_failure env initial_App [] "API Key is missing"%string).
    + reflexivity.
    + vm_compute. discriminate.
    + reflexivity.
Defined.

(** ** Restart *)

(** C8. After [handleRestart], from PLAYING as from any state, the
    session is in SETUP, the score is 0 of 0, no identifier is answered,
    no question is active, no pause is requested and the list of
    questions is empty. *)
Theorem handleRestart_resets (s : App) :
  let s' := handleRestart s in
  state s' = SETUP
  /\ score s' = mkScore 0 0
  /\ answeredQuestionIds s' = ∅
  /\ activeQuestion s' = None
  /\ shouldPause s' = false
  /\ questions s' = [].
Proof. simpl. auto 10. Qed.

(** The exit button of a session that is PLAYING runs [handleRestart]
    and unmounts the player and the overlay. *)
Lemma step_ClickExit (env : Environment) (s : Session) :
  state (app s) = PLAYING ->
  let s' := step env ClickExit s in
  app s' = handleRestart (app s) /\ player s' = None /\ overlay s' = None.
Proof.
  intros H. simpl. rewrite H. simpl. unfold update_App, same_state.
  simpl. rewrite H. simpl. unfold render_App. simpl. auto.
Qed.

(** ** The estimated timestamps *)




(** ** Progress *)

(** C10. [progressPercentage] is 0 when there is no question, without
    any division; otherwise it is the total of the score divided by the
    number of questions, a number that is not 0, times 100: the
    percentage times the number of questions is 100 times the total. *)
Theorem progressPercentage_spec (s : App) :
  (questions s = [] -> progressPercentage s = 0%Q)
  /\ (questions s <> [] ->
      let n := inject_Z (Z.of_nat (length (questions s))) in
      ~ (n == 0)%Q
      /\ progressPercentage s = (inject_Z (Z.of_nat (total (score s))) / n * 100)%Q
      /\ (progressPercentage s * n == 100 * inject_Z (Z.of_nat (total (score s))))%Q).
Proof.
  split.
  - unfold progressPercentage. intros ->. reflexivity.
  - intros Hne n.
    assert (Hn : ~ (n == 0)%Q).
    { subst n. destruct (questions s) as [|q l]; [congruence|].
      unfold Qeq. simpl. lia. }
    split; [exact Hn|].
    assert (E : progressPercentage s
                = (inject_Z (Z.of_nat (total (score s))) / n * 100)%Q).
    { unfold progressPercentage. subst n.
      destruct (questions s) as [|q l]; [congruence|reflexivity]. }
    split; [exact E|]. rewrite E. field. exact Hn.
Qed.

Lemma progressPercentage_spec_witness :
  progressPercentage initial_App = 0%Q
  /\ (let s := setScore (fun _ => mkScore 1 1)
                        (setQuestions [sample_question "q1" 10; sample_question "q2" 20]
                                      initial_App) in
      let n := inject_Z (Z.of_nat (length (questions s))) in
      ~ (n == 0)%Q
      /\ progressPercentage s = (inject_Z (Z.of_nat (total (score s))) / n * 100)%Q
      /\ (progressPercentage s * n == 100 * inject_Z (Z.of_nat (total (score s))))%Q).
Proof.
  split.
  - apply (proj1 (progressPercentage_spec initial_App)). reflexivity.
  - apply (proj2 (progressPercentage_spec
                    (setScore (fun _ => mkScore 1 1)
                       (setQuestions [sample_question "q1" 10; sample_question "q2" 20]
                                     initial_App)))).
    simpl. discriminate.
Defined.

(** ** Whole sessions *)

(** The sort keeps questions with equal timestamps in the order of the
    provider. *)
Example sort_is_stable :
  map id (sort byTimestamp [sample_question "c" 30; sample_question "a" 10;
                            sample_question "b" 10])
  = ["a"; "b"; "c"]%string.
Proof. reflexivity. Qed.

(** The first option chosen is the one that counts. *)
Example first_selection_wins :
  handleSubmit 1 (handleSubmit 2 initial_QuizOverlay) = mkQuizOverlay (Some 2) true.
Proof. reflexivity. Qed.

(** Nothing is completed before an option is chosen. *)
Example continue_needs_selection (q : QuizQuestion) :
  handleContinue q initial_QuizOverlay = None.
Proof. reflexivity. Qed.

(** A question answered with its correct option, in a session. *)
Example session_correct_answer :
  let q := sample_question "q1" 10 in
  let s := run (sample_env [q]) [Tick 10; SelectOption 2; ClickContinue] (playing [q]) in
  score (app s) = mkScore 1 1
  /\ elements (answeredQuestionIds (app s)) = ["q1"%string]
  /\ activeQuestion (app s) = None
  /\ shouldPause (app s) = false
  /\ overlay s = None.
Proof. vm_compute. auto 10. Qed.

(** A question answered with another option. *)
Example session_wrong_answer :
  let q := sample_question "q1" 10 in
  let s := run (sample_env [q]) [Tick 10; SelectOption 0; ClickContinue] (playing [q]) in
  score (app s) = mkScore 0 1.
Proof. vm_compute. reflexivity. Qed.

(** Leaving the session unmounts the player: later ticks find none. *)
Example session_exit :
  let q := sample_question "q1" 10 in
  let s := run (sample_env [q]) [Tick 10; ClickExit; Tick 10] (playing [q]) in
  state (app s) = SETUP /\ player s = None /\ activeQuestion (app s) = None.
Proof. vm_compute. auto. Qed.
(* ===================================================================== *)
(** * Further properties of the code *)
(* ===================================================================== *)

(** ** What every session keeps *)

Ltac wf_easy :=
  first
    [ assumption
    | discriminate
    | reflexivity
    | congruence
    | lia
    | split; [discriminate | congruence]
    | split; [discriminate | reflexivity]
    | let i := fresh in let H := fresh in
      intros i H; apply not_elem_of_empty in H; contradiction
    | constructor; fail
    | let E := fresh in intros E; congruence
    | auto; fail ].

Lemma initial_App_wellformed : App_wellformed initial_App.
Proof.
  unfold App_wellformed. simpl. split_and!; try wf_easy.
Qed.

Lemma setVideoUrl_wellformed (url : js_string) (a : App) :
  state a = SETUP -> App_wellformed a -> App_wellformed (setVideoUrl url a).
Proof.
  intros Hs (H1 & H2 & H3 & H4 & H5 & H6 & H7 & H8 & H9 & H10). unfold App_wellformed. simpl.
  split_and!; try wf_easy.
Qed.

Lemma handleGenerate_wellformed (env : Environment) (a : App) :
  state a = SETUP -> App_wellformed a -> App_wellformed (snd (handleGenerate env a)).
Proof.
  intros Hs W. pose proof W as (H1 & H2 & H3 & H4 & H5 & H6 & H7 & H8 & H9 & H10).
  destruct (H2 Hs) as (Hq & Hact & Hans & Hsc & Hp).
  unfold handleGenerate.
  destruct (getYouTubeId (videoUrl a)) as [vid|] eqn:Hid; [|exact W].
  destruct (generateQuestions env (topic a) (transcript a) (Some 15%Q))
    as [calls [message|qs]]; simpl.
  - unfold App_wellformed. simpl. split_and!; try wf_easy.
  - unfold App_wellformed. simpl. rewrite Hact, Hans, Hsc, Hp. simpl.
    split_and!; try wf_easy.
    apply sort_byTimestamp_sorted.
Qed.

Lemma handleTimeUpdate_wellformed (t : Q) (a : App) (answered : gset string) :
  state a = PLAYING -> App_wellformed a ->
  App_wellformed (handleTimeUpdate (questions a) answered t a).
Proof.
  intros Hs W. pose proof W as (H1 & H2 & H3 & H4 & H5 & H6 & H7 & H8 & H9 & H10).
  unfold handleTimeUpdate.
  destruct (find (pending answered t) (questions a)) as [q|] eqn:Hfind; [|exact W].
  unfold App_wellformed. simpl. split_and!; try wf_easy.
  intros q' E. inversion E; subst q'. apply find_some in Hfind. apply Hfind.
Qed.

Lemma handleQuestionComplete_wellformed (b : bool) (a : App) :
  state a = PLAYING -> App_wellformed a ->
  App_wellformed (handleQuestionComplete (activeQuestion a) b a).
Proof.
  intros Hs W. pose proof W as (H1 & H2 & H3 & H4 & H5 & H6 & H7 & H8 & H9 & H10).
  unfold handleQuestionComplete.
  destruct (activeQuestion a) as [q|] eqn:Hact; unfold App_wellformed; simpl;
    split_and!; try wf_easy.
  - destruct b; lia.
  - rewrite size_union_alt.
    assert (size ({[id q]} ∖ answeredQuestionIds a) <= 1); [|lia].
    etransitivity; [apply subseteq_size, subseteq_difference_l; reflexivity|].
    rewrite size_singleton. lia.
  - intros i Hi. apply elem_of_union in Hi as [Hi|Hi]; [auto|].
    apply elem_of_singleton in Hi. subst i. exists q. auto.
Qed.

Lemma handleRestart_wellformed (a : App) :
  App_wellformed a -> App_wellformed (handleRestart a).
Proof.
  intros (H1 & H2 & H3 & H4 & H5 & H6 & H7 & H8 & H9 & H10).
  unfold App_wellformed. simpl. split_and!; try wf_easy.
Qed.

Lemma initial_Session_wellformed : Session_wellformed initial_Session.
Proof.
  split; [apply initial_App_wellformed|]. simpl. split_and!.
  - discriminate.
  - split; [congruence | discriminate].
  - split; [congruence | intros [E _]; discriminate].
Qed.

Lemma update_App_wellformed (a : App) (s : Session) :
  Session_wellformed s ->
  App_wellformed a ->
  (state (app s) = PLAYING -> state a = PLAYING -> questions a = questions (app s)) ->
  Session_wellformed (update_App a s).
Proof.
  intros (Wapp & Hcap & Hplayer & Hoverlay) Wa Hq. unfold update_App.
  destruct (same_state a (app s));
    [exact (conj Wapp (conj Hcap (conj Hplayer Hoverlay)))|].
  pose proof Wa as (_ & _ & _ & _ & _ & Hpause & _ & _ & _ & _).
  assert (Hov : (if shouldPause a
                 then match activeQuestion a with
                      | Some _ => match overlay s with
                                  | Some o => Some o
                                  | None => Some initial_QuizOverlay
                                  end
                      | None => None
                      end
                 else None) <> None
                <-> shouldPause a = true).
  { destruct (shouldPause a) eqn:Hsp.
    - destruct (activeQuestion a) eqn:Hact.
      + split; [auto | intros _; destruct (overlay s); discriminate].
      + exfalso. apply Hpause; reflexivity.
    - split; [congruence | intros E; discriminate]. }
  unfold render_App. case_bool_decide as Hst; simpl.
  - destruct (player s) as [p|] eqn:Hp.
    + pose proof (render_YouTubePlayer_keeps_handler (shouldPause a) (S (renders s)) p)
        as [K _].
      destruct (render_YouTubePlayer _ _ p) as [p0 cs]. simpl in *.
      split; [exact Wa|]. simpl. split_and!.
      * intros p' E. inversion E; subst p0. rewrite K, (Hcap p eq_refl).
        symmetry. apply Hq; [|exact Hst]. apply Hplayer. discriminate.
      * split; [intros _; exact Hst | discriminate].
      * split; [intros E; split; [exact Hst | apply Hov; assumption]
               | intros [_ E]; apply Hov; auto].
    + simpl. split; [exact Wa|]. simpl. split_and!.
      * intros p' E. inversion E. reflexivity.
      * split; [intros _; exact Hst | discriminate].
      * split; [intros E; split; [exact Hst | apply Hov; assumption]
               | intros [_ E]; apply Hov; auto].
  - split; [exact Wa|]. simpl. split_and!.
    + discriminate.
    + split; [congruence | contradiction].
    + split; [congruence | intros [E _]; contradiction].
Qed.

Lemma step_wellformed (env : Environment) (e : Event) (s : Session) :
  Session_wellformed s -> Session_wellformed (step env e s).
Proof.
  intros W. pose proof W as (Wapp & Hcap & Hplayer & Hoverlay).
  destruct e; simpl.
  - (* EditVideoUrl *)
    case_bool_decide as Hst; [|exact W].
    apply update_App_wellformed; [exact W | apply setVideoUrl_wellformed; assumption |].
    congruence.
  - (* EditTopic *)
    case_bool_decide as Hst; [|exact W].
    apply update_App_wellformed; [exact W | exact Wapp | congruence].
  - (* EditTranscript *)
    case_bool_decide as Hst; [|exact W].
    apply update_App_wellformed; [exact W | exact Wapp | congruence].
  - (* ClickStart *)
    case_bool_decide as Hst; simpl; [|exact W].
    destruct (isGenerating (app s)); simpl; [exact W|].
    apply update_App_wellformed; [exact W | apply handleGenerate_wellformed; assumption |].
    congruence.
  - (* PlayerReady *)
    destruct (player s) as [p|] eqn:Hp; [|exact W].
    pose proof (render_YouTubePlayer_keeps_handler
                  (shouldPause (app s)) (snd (pause_deps p))
                  (mkYouTubePlayer (onTimeUpdate_questions p)
                                   (onTimeUpdate_answeredQuestionIds p)
                                   true (pause_deps p))) as [K _].
    destruct (render_YouTubePlayer _ _ _) as [p0 cs]. simpl in *.
    split; [exact Wapp|]. simpl. split_and!.
    + intros p' E. inversion E; subst p0. rewrite K. apply Hcap. reflexivity.
    + split; [intros _; apply Hplayer; discriminate | discriminate].
    + exact Hoverlay.
  - (* Tick *)
    destruct (player s) as [p|] eqn:Hp; [|exact W].
    destruct (isReady p); [|exact W].
    assert (Hst : state (app s) = PLAYING) by (apply Hplayer; discriminate).
    rewrite (Hcap p eq_refl).
    apply update_App_wellformed; [exact W | apply handleTimeUpdate_wellformed; assumption |].
    intros _ _. unfold handleTimeUpdate. destruct (find _ _); reflexivity.
  - (* SelectOption *)
    destruct (overlay s) as [o|] eqn:Ho; [|exact W].
    destruct (activeQuestion (app s)); [|exact W].
    destruct (Nat.ltb index _); [|exact W].
    split; [exact Wapp|]. simpl. split_and!; [exact Hcap | exact Hplayer |].
    split; [intros _; apply Hoverlay; discriminate | discriminate].
  - (* ClickContinue *)
    destruct (overlay s) as [o|] eqn:Ho; [|exact W].
    destruct (activeQuestion (app s)) as [q|] eqn:Hact; [|exact W].
    destruct (isSubmitted o); [|exact W].
    destruct (handleContinue q o); [|exact W].
    assert (Hst : state (app s) = PLAYING) by (apply Hoverlay; discriminate).
    rewrite <- Hact.
    apply update_App_wellformed;
      [exact W | apply handleQuestionComplete_wellformed; assumption |].
    intros _ _. rewrite Hact. reflexivity.
  - (* ClickExit *)
    case_bool_decide as Hst; [|exact W].
    apply update_App_wellformed;
      [exact W | apply handleRestart_wellformed, Wapp |].
    simpl. discriminate.
Qed.

Lemma run_wellformed (env : Environment) (events : list Event) :
  Session_wellformed (run env events initial_Session).
Proof.
  unfold run. generalize initial_Session_wellformed. generalize initial_Session.
  induction events as [|e events IH]; intros s W; simpl; [exact W|].
  apply IH, step_wellformed, W.
Qed.

(** X1. Whatever the learner and the provider do, the session is in
    SETUP or in PLAYING, never in GENERATING or FINISHED; the player is
    mounted exactly while it is PLAYING; and in SETUP the quiz is blank:
    no questions, no active question, no answered identifier, a score of
    0 of 0, no pause request and no overlay. *)
Theorem session_states (env : Environment) (events : list Event) :
  let s := run env events initial_Session in
  (state (app s) = SETUP \/ state (app s) = PLAYING)
  /\ (player s <> None <-> state (app s) = PLAYING)
  /\ (state (app s) = SETUP ->
      questions (app s) = [] /\ activeQuestion (app s) = None
      /\ answeredQuestionIds (app s) = ∅ /\ score (app s) = mkScore 0 0
      /\ shouldPause (app s) = false /\ overlay s = None).
Proof.
  intros s. destruct (run_wellformed env events) as (Wapp & _ & Hplayer & Hoverlay).
  fold s in Wapp, Hplayer, Hoverlay.
  destruct Wapp as (H1 & H2 & _). split_and!; [exact H1 | exact Hplayer |].
  intros Hs. destruct (H2 Hs) as (? & ? & ? & ? & ?). split_and!; auto.
  destruct (overlay s) eqn:Ho; [|reflexivity].
  assert (E : state (app s) = PLAYING) by (apply Hoverlay; discriminate). congruence.
Qed.

(** X2. In every session the count of correct answers is at most the
    total of answers, and the answered identifiers are at most as many
    as the total. *)
Theorem session_score_bounds (env : Environment) (events : list Event) :
  let s := run env events initial_Session in
  correct (score (app s)) <= total (score (app s))
  /\ size (answeredQuestionIds (app s)) <= total (score (app s)).
Proof.
  intros s. destruct (run_wellformed env events) as (Wapp & _).
  destruct Wapp as (_ & _ & _ & H4 & H5 & _). auto.
Qed.

(** X3. In every session the pause is requested exactly when a question
    is active, and the overlay is shown exactly when the session is
    PLAYING and the pause is requested: the video is never held without
    a question on the screen, and no question is on the screen while
    the video is free to run. *)
Theorem session_pause_iff_question (env : Environment) (events : list Event) :
  let s := run env events initial_Session in
  (shouldPause (app s) = true <-> activeQuestion (app s) <> None)
  /\ (overlay s <> None <-> state (app s) = PLAYING /\ shouldPause (app s) = true).
Proof.
  intros s. destruct (run_wellformed env events) as (Wapp & _ & _ & Hoverlay).
  destruct Wapp as (_ & _ & _ & _ & _ & H6 & _). auto.
Qed.

(** X4. In every session the questions are in the order of their
    timestamps, the timer of a mounted player works on exactly these
    questions, the active question is one of them, and every answered
    identifier is the identifier of one of them. *)
Theorem session_questions (env : Environment) (events : list Event) :
  let s := run env events initial_Session in
  StronglySorted earlier (questions (app s))
  /\ (forall p, player s = Some p -> onTimeUpdate_questions p = questions (app s))
  /\ (forall q, activeQuestion (app s) = Some q -> In q (questions (app s)))
  /\ (forall i, i ∈ answeredQuestionIds (app s) ->
                exists q, In q (questions (app s)) /\ id q = i).
Proof.
  intros s. destruct (run_wellformed env events) as (Wapp & Hcap & _).
  destruct Wapp as (_ & _ & _ & _ & _ & _ & H7 & H8 & H9 & _). auto.
Qed.

(** X5. While a session is PLAYING, the identifier the player is bound
    to is one that [getYouTubeId] extracted from a link: 11 characters,
    none of them [#], [&] or [?]. *)
Theorem session_video_identifier (env : Environment) (events : list Event) :
  let s := run env events initial_Session in
  state (app s) = PLAYING ->
  (exists url, getYouTubeId url = Some (currentVideoId (app s)))
  /\ length (currentVideoId (app s)) = 11
  /\ forallb (fun c => negb (delimiter c)) (currentVideoId (app s)) = true.
Proof.
  intros s Hs. destruct (run_wellformed env events) as (Wapp & _).
  destruct Wapp as (_ & _ & H3 & _). specialize (H3 Hs). split; [eauto|].
  apply getYouTubeId_inv in H3 as (p & m & r & _ & _ & _ & Hlen & Hd & _). auto.
Qed.

Lemma session_video_identifier_witness :
  let s := run (sample_env [sample_question "q1" 10]) [ClickStart] initial_Session in
  (exists url, getYouTubeId url = Some (currentVideoId (app s)))
  /\ length (currentVideoId (app s)) = 11
  /\ forallb (fun c => negb (delimiter c)) (currentVideoId (app s)) = true.
Proof.
  apply (session_video_identifier (sample_env [sample_question "q1" 10]) [ClickStart]).
  reflexivity.
Defined.

(** ** Generation, from the form to the player *)

(** X6. From SETUP, [handleGenerate] reaches PLAYING exactly when the
    link yields an identifier, a credential is at hand, the provider
    responds with a text that is not empty and the text parses; then
    one call has gone to the provider, with the topic, the transcript
    and the timestamps for 15 minutes, and the questions are the parsed
    ones, sorted.  In every case the generating flag is off at the
    end. *)
Theorem handleGenerate_PLAYING_iff (env : Environment) (a : App) :
  state a = SETUP ->
  isGenerating a = false ->
  let prompt := mkPrompt (topic a) (transcript a) [90; 270; 450; 630; 810]%Z in
  (state (snd (handleGenerate env a)) = PLAYING
   <-> exists vid apiKey text qs,
        getYouTubeId (videoUrl a) = Some vid
        /\ API_KEY env = Some apiKey /\ truthy apiKey = true
        /\ generateContent env prompt = Responds (Some text) /\ truthy text = true
        /\ JSON_parse env text = inr qs
        /\ handleGenerate env a
           = ([prompt],
              setIsGenerating false
                (setState PLAYING
                   (setQuestions (sort byTimestamp qs)
                      (setCurrentVideoId vid
                         (setError None (setIsGenerating true a)))))))
  /\ isGenerating (snd (handleGenerate env a)) = false.
Proof.
  intros Hs Hg prompt. unfold handleGenerate, generateQuestions.
  change (segments 15) with [90; 270; 450; 630; 810]%Z. fold prompt.
  destruct (getYouTubeId (videoUrl a)) as [vid|] eqn:Hid.
  2:{ simpl. split; [|exact Hg]. split.
      - rewrite Hs. discriminate.
      - intros (vid & ? & ? & ? & E & _). discriminate. }
  destruct (API_KEY env) as [apiKey|] eqn:Hkey.
  2:{ simpl. split; [|reflexivity]. split.
      - rewrite Hs. discriminate.
      - intros (? & ? & ? & ? & _ & E & _). discriminate. }
  destruct (truthy apiKey) eqn:Htk; simpl.
  2:{ split; [|reflexivity]. split.
      - rewrite Hs. discriminate.
      - intros (? & k & ? & ? & _ & E & Ht & _). inversion E; subst k. congruence. }
  destruct (generateContent env prompt) as [message|[text|]] eqn:Hgen; simpl.
  - split; [|reflexivity]. split.
    + rewrite Hs. discriminate.
    + intros (? & ? & ? & ? & _ & _ & _ & E & _). discriminate.
  - destruct (truthy text) eqn:Htt; simpl.
    + destruct (JSON_parse env text) as [message|qs] eqn:Hparse; simpl.
      * split; [|reflexivity]. split.
        -- rewrite Hs. discriminate.
        -- intros (? & ? & t' & ? & _ & _ & _ & E & _ & E' & _).
           inversion E; subst t'. congruence.
      * split; [|reflexivity]. split; [intros _|reflexivity].
        exists vid, apiKey, text, qs. auto 10.
    + split; [|reflexivity]. split.
      * rewrite Hs. discriminate.
      * intros (? & ? & t' & ? & _ & _ & _ & E & E' & _).
        inversion E; subst t'. congruence.
  - split; [|reflexivity]. split.
    + rewrite Hs. discriminate.
    + intros (? & ? & ? & ? & _ & _ & _ & E & _). discriminate.
Qed.

Lemma handleGenerate_PLAYING_iff_witness :
  let env := sample_env [sample_question "q1" 10] in
  let prompt := mkPrompt (topic initial_App) (transcript initial_App)
                         [90; 270; 450; 630; 810]%Z in
  (state (snd (handleGenerate env initial_App)) = PLAYING
   <-> exists vid apiKey text qs,
        getYouTubeId (videoUrl initial_App) = Some vid
        /\ API_KEY env = Some apiKey /\ truthy apiKey = true
        /\ generateContent env prompt = Responds (Some text) /\ truthy text = true
        /\ JSON_parse env text = inr qs
        /\ handleGenerate env initial_App
           = ([prompt],
              setIsGenerating false
                (setState PLAYING
                   (setQuestions (sort byTimestamp qs)
                      (setCurrentVideoId vid
                         (setError None (setIsGenerating true initial_App)))))))
  /\ isGenerating (snd (handleGenerate env initial_App)) = false.
Proof.
  intros env prompt.
  apply (handleGenerate_PLAYING_iff env initial_App); reflexivity.
Defined.

(** ** Completion through the page *)

(** X7. The button of the overlay either does nothing, or completes the
    active question with the option that was chosen: the total grows by
    one, the count of correct answers by one exactly when the chosen
    index is [correctAnswerIndex], the identifier of the active
    question joins the answered ones, and the active question and the
    pause request are cleared.  It is never the guarded case of
    [handleQuestionComplete] that runs. *)
Theorem step_ClickContinue (env : Environment) (s : Session) :
  let s' := step env ClickContinue s in
  s' = s
  \/ exists q o sel,
      activeQuestion (app s) = Some q
      /\ overlay s = Some o /\ selectedOption o = Some sel
      /\ total (score (app s')) = total (score (app s)) + 1
      /\ correct (score (app s'))
         = correct (score (app s))
           + (if Z.eqb (Z.of_nat sel) (correctAnswerIndex q) then 1 else 0)
      /\ answeredQuestionIds (app s') = answeredQuestionIds (app s) ∪ {[ id q ]}
      /\ activeQuestion (app s') = None
      /\ shouldPause (app s') = false.
Proof.
  simpl.
  destruct (overlay s) as [o|] eqn:Ho; [|left; reflexivity].
  destruct (activeQuestion (app s)) as [q|] eqn:Hact; [|left; reflexivity].
  destruct (isSubmitted o); [|left; reflexivity].
  unfold handleContinue.
  destruct (selectedOption o) as [sel|] eqn:Hsel; [|left; reflexivity].
  right. exists q, o, sel.
  destruct (update_App_fields
              (handleQuestionComplete (Some q)
                 (Z.eqb (Z.of_nat sel) (correctAnswerIndex q)) (app s)) s)
    as (-> & -> & -> & ->).
  simpl. split_and!; try reflexivity; assumption.
Qed.

(** ** The commands of the player *)

Lemma render_YouTubePlayer_commands (shouldPause : bool) (onPaused : nat)
      (p : YouTubePlayer) :
  let r := render_YouTubePlayer shouldPause onPaused p in
  isReady (fst r) = isReady p
  /\ (snd r = []
      \/ (snd r = [PauseVideo; OnPaused] /\ shouldPause = true /\ isReady p = true)).
Proof.
  unfold render_YouTubePlayer. case_bool_decide; simpl; [auto|].
  split; [reflexivity|]. unfold pause_effect.
  destruct (isReady p), shouldPause; auto.
Qed.

Lemma update_App_commands (a : App) (s : Session) :
  let s' := update_App a s in
  commands s' = commands s
  \/ (commands s' = commands s ++ [PauseVideo; OnPaused]
      /\ shouldPause (app s') = true
      /\ exists p, player s' = Some p /\ isReady p = true).
Proof.
  unfold update_App. destruct (same_state a (app s)); [left; reflexivity|].
  unfold render_App. case_bool_decide as Hst; simpl.
  - destruct (player s) as [p|] eqn:Hp.
    + pose proof (render_YouTubePlayer_commands (shouldPause a) (S (renders s)) p)
        as [Hr K].
      destruct (render_YouTubePlayer _ _ p) as [p0 cs]. simpl in *.
      destruct K as [->|(-> & Hsp & Hready)].
      * left. apply app_nil_r.
      * right. split_and!; auto. exists p0. split; [reflexivity | congruence].
    + simpl. left. apply app_nil_r.
  - left. apply app_nil_r.
Qed.

(** X8. In a step of a session the player issues nothing, or the pause
    command followed by the paused signal, once; and it issues them only
    if, after the step, the pause is requested and the widget is ready.
    Nothing is ever taken back from what was issued. *)
Theorem step_commands (env : Environment) (e : Event) (s : Session) :
  let s' := step env e s in
  commands s' = commands s
  \/ (commands s' = commands s ++ [PauseVideo; OnPaused]
      /\ shouldPause (app s') = true
      /\ exists p, player s' = Some p /\ isReady p = true).
Proof.
  destruct e; simpl;
    repeat match goal with
           | |- context [bool_decide ?P] => destruct (bool_decide P)
           | |- context [negb (isGenerating ?a)] => destruct (isGenerating a)
           end; simpl;
    try (left; reflexivity); try apply update_App_commands.
  - (* PlayerReady *)
    destruct (player s) as [p|] eqn:Hp; [|left; reflexivity].
    pose proof (render_YouTubePlayer_commands
                  (shouldPause (app s)) (snd (pause_deps p))
                  (mkYouTubePlayer (onTimeUpdate_questions p)
                                   (onTimeUpdate_answeredQuestionIds p)
                                   true (pause_deps p))) as [Hr K].
    destruct (render_YouTubePlayer _ _ _) as [p0 cs]. simpl in *.
    destruct K as [->|(-> & Hsp & Hready)].
    + left. apply app_nil_r.
    + right. split_and!; auto. exists p0. auto.
  - (* Tick *)
    destruct (player s) as [p|]; [|left; reflexivity].
    destruct (isReady p); [apply update_App_commands | left; reflexivity].
  - (* SelectOption *)
    destruct (overlay s); [|left; reflexivity].
    destruct (activeQuestion (app s)); [|left; reflexivity].
    destruct (Nat.ltb index _); left; reflexivity.
  - (* ClickContinue *)
    destruct (overlay s) as [o|]; [|left; reflexivity].
    destruct (activeQuestion (app s)) as [q|]; [|left; reflexivity].
    destruct (isSubmitted o); [|left; reflexivity].
    destruct (handleContinue q o); [apply update_App_commands | left; reflexivity].
Qed.

(** ** The window of a question and the spacing of the ticks *)




(** ** The overlay *)

Lemma handleSubmit_submitted (index : nat) (o : QuizOverlay) :
  isSubmitted o = true -> handleSubmit index o = o.
Proof. intros H. unfold handleSubmit. rewrite H. reflexivity. Qed.

(** X10. Of the options a learner clicks in an overlay, the first one
    counts: whatever is clicked afterwards, the selection stays the
    first index, and continuing completes the question with the
    comparison of that index to [correctAnswerIndex]. *)
Theorem first_selection_counts (q : QuizQuestion) (first : nat) (later : list nat) :
  let o := fold_left (fun o index => handleSubmit index o) (first :: later)
                     initial_QuizOverlay in
  o = mkQuizOverlay (Some first) true
  /\ handleContinue q o = Some (Z.eqb (Z.of_nat first) (correctAnswerIndex q)).
Proof.
  simpl.
  assert (E : forall l o, isSubmitted o = true ->
                          fold_left (fun o index => handleSubmit index o) l o = o).
  { induction l as [|i l IH]; intros o Ho; simpl; [reflexivity|].
    rewrite handleSubmit_submitted by exact Ho. apply IH, Ho. }
  rewrite E by reflexivity. split; reflexivity.
Qed.

(** X11. A question whose [correctAnswerIndex] is not an index of its
    options cannot be answered correctly: whichever of its options is
    chosen in a fresh overlay, the completion receives false, no option
    is marked as the correct one and the banner does not say correct.
    With an index of its options, the completion receives true for
    that option and for no other. *)
Theorem correctAnswerIndex_bounds (q : QuizQuestion) (index : nat) :
  index < length (options q) ->
  let o := handleSubmit index initial_QuizOverlay in
  ((correctAnswerIndex q < 0 \/ Z.of_nat (length (options q)) <= correctAnswerIndex q)%Z ->
   handleContinue q o = Some false
   /\ isCorrect q o = false
   /\ forall idx, idx < length (options q) -> btnClass q o idx <> MarkedCorrect)
  /\ (handleContinue q o = Some true <-> Z.of_nat index = correctAnswerIndex q).
Proof.
  intros Hidx o. subst o. unfold handleContinue, isCorrect, btnClass, handleSubmit. simpl.
  split.
  - intros Hout.
    assert (E : forall i, i < length (options q) ->
                          Z.eqb (Z.of_nat i) (correctAnswerIndex q) = false).
    { intros i Hi. apply Z.eqb_neq. lia. }
    rewrite (E index Hidx). split_and!; try reflexivity.
    intros idx Hi. rewrite (E idx Hi). case_bool_decide; discriminate.
  - split.
    + intros H. inversion H. apply Z.eqb_eq. assumption.
    + intros H. rewrite H, Z.eqb_refl. reflexivity.
Qed.

Lemma correctAnswerIndex_bounds_witness :
  let q := mkQuizQuestion "q1" 10 "Which verb fits?" ["pitch"; "cook"] 4 "" None in
  let o := handleSubmit 1 initial_QuizOverlay in
  ((correctAnswerIndex q < 0 \/ Z.of_nat (length (options q)) <= correctAnswerIndex q)%Z ->
   handleContinue q o = Some false
   /\ isCorrect q o = false
   /\ forall idx, idx < length (options q) -> btnClass q o idx <> MarkedCorrect)
  /\ (handleContinue q o = Some true <-> Z.of_nat 1 = correctAnswerIndex q).
Proof.
  intros q o.
  apply (correctAnswerIndex_bounds q 1). simpl. lia.
Defined.

(** X12. Before an option is chosen every option can be chosen and no
    icon is shown.  Once an option is chosen, the option at
    [correctAnswerIndex] is marked correct whichever was chosen, the
    chosen option is marked wrong exactly when it is another one, every
    other option is dimmed, the check icon goes with the correct mark
    and the cross with the wrong mark; the banner says correct exactly
    when no option is marked wrong, and what the banner says is what
    the completion receives. *)
Theorem overlay_marks (q : QuizQuestion) (sel : nat) :
  (forall idx, btnClass q initial_QuizOverlay idx = Selectable
               /\ showCheckCircle q initial_QuizOverlay idx = false
               /\ showXCircle q initial_QuizOverlay idx = false)
  /\
  (let o := handleSubmit sel initial_QuizOverlay in
   (forall idx,
       (btnClass q o idx = MarkedCorrect <-> Z.of_nat idx = correctAnswerIndex q)
       /\ (btnClass q o idx = MarkedWrong
           <-> idx = sel /\ Z.of_nat sel <> correctAnswerIndex q)
       /\ (btnClass q o idx = Dimmed
           <-> idx <> sel /\ Z.of_nat idx <> correctAnswerIndex q)
       /\ btnClass q o idx <> Selectable
       /\ (showCheckCircle q o idx = true <-> btnClass q o idx = MarkedCorrect)
       /\ (showXCircle q o idx = true <-> btnClass q o idx = MarkedWrong))
   /\ (isCorrect q o = true <-> forall idx, btnClass q o idx <> MarkedWrong)
   /\ handleContinue q o = Some (isCorrect q o)).
Proof.
  split; [intros idx; split_and!; reflexivity|].
  intros o. subst o. unfold handleSubmit. simpl.
  assert (M : forall idx,
             (btnClass q (mkQuizOverlay (Some sel) true) idx = MarkedCorrect
              <-> Z.of_nat idx = correctAnswerIndex q)
             /\ (btnClass q (mkQuizOverlay (Some sel) true) idx = MarkedWrong
                 <-> idx = sel /\ Z.of_nat sel <> correctAnswerIndex q)
             /\ (btnClass q (mkQuizOverlay (Some sel) true) idx = Dimmed
                 <-> idx <> sel /\ Z.of_nat idx <> correctAnswerIndex q)
             /\ btnClass q (mkQuizOverlay (Some sel) true) idx <> Selectable
             /\ (showCheckCircle q (mkQuizOverlay (Some sel) true) idx = true
                 <-> btnClass q (mkQuizOverlay (Some sel) true) idx = MarkedCorrect)
             /\ (showXCircle q (mkQuizOverlay (Some sel) true) idx = true
                 <-> btnClass q (mkQuizOverlay (Some sel) true) idx = MarkedWrong)).
  { intros idx. unfold btnClass, showCheckCircle, showXCircle. simpl.
    destruct (Z.eqb_spec (Z.of_nat idx) (correctAnswerIndex q)) as [E|E];
      case_bool_decide as Hsel; simpl;
      assert (Hsel' : sel = idx \/ sel <> idx) by lia;
      (destruct Hsel' as [Hs|Hs]; [subst idx | assert (Some sel <> Some idx) by congruence]);
      intuition (try discriminate; try congruence). }
  split; [exact M|]. split; [|reflexivity].
  unfold isCorrect. simpl. split.
  - intros H idx Hw. destruct (M idx) as (_ & Hm & _). apply Hm in Hw as [_ Hw].
    apply Z.eqb_eq in H. contradiction.
  - intros H. destruct (Z.eqb_spec (Z.of_nat sel) (correctAnswerIndex q)) as [E|E];
      [reflexivity|].
    exfalso. apply (H sel). destruct (M sel) as (_ & Hw & _). apply Hw. auto.
Qed.

(** ** The lesson plan and the timeline *)

(** X13. In the lesson plan a slot is shown as completed exactly when
    its question is answered.  Among the others, the first slot is
    highlighted as next unless "start" is an answered identifier, and a
    later slot is highlighted exactly when the question before it, its
    identifier not being empty, is not answered either: with nothing
    answered every slot is highlighted, and the slot that follows an
    answered question is not. *)
Theorem lesson_plan_slots (questions : list QuizQuestion) (answered : gset string) :
  (forall idx q, slotStyle questions answered idx q = SlotCompleted <-> id q ∈ answered)
  /\ (forall idx q, slotStyle questions ∅ idx q = SlotNext)
  /\ (forall q, id q ∉ answered ->
                (slotStyle questions answered 0 q = SlotNext
                 <-> "start"%string ∉ answered))
  /\ (forall idx p q,
         nth_error questions idx = Some p ->
         id p <> ""%string ->
         id q ∉ answered ->
         (slotStyle questions answered (S idx) q = SlotNext <-> id p ∉ answered)).
Proof.
  split_and!.
  - intros idx q. unfold slotStyle, isAnswered. case_bool_decide as H; [tauto|].
    destruct (isNext _ _ _ _); split; intros; try discriminate; contradiction.
  - intros idx q. unfold slotStyle, isNext, isAnswered.
    rewrite !bool_decide_eq_false_2 by apply not_elem_of_empty. reflexivity.
  - intros q Hq. unfold slotStyle, isNext, isAnswered. simpl.
    rewrite (bool_decide_eq_false_2 _ Hq). simpl.
    case_bool_decide as H; simpl; split; intros; try discriminate; tauto.
  - intros idx p q Hp Hne Hq. unfold slotStyle, isNext, isAnswered, previousId.
    rewrite Hp, (bool_decide_eq_false_2 _ Hq). simpl.
    assert (Ht : truthy (id p) = true).
    { unfold truthy. apply negb_true_iff, String.eqb_neq, Hne. }
    rewrite Ht. case_bool_decide as H; simpl; split; intros; try discriminate; tauto.
Qed.

Lemma lesson_plan_slots_witness :
  let q1 := sample_question "q1" 10 in
  let q2 := sample_question "q2" 20 in
  (slotStyle [q1; q2] {[ "q1"%string ]} 0 q2 = SlotNext
   <-> "start"%string ∉ ({[ "q1"%string ]} : gset string))
  /\ (slotStyle [q1; q2] {[ "q1"%string ]} 1 q2 = SlotNext
      <-> id q1 ∉ ({[ "q1"%string ]} : gset string)).
Proof.
  intros q1 q2. split.
  - apply (proj1 (proj2 (proj2 (lesson_plan_slots [q1; q2] {[ "q1"%string ]}))) q2).
    vm_compute. discriminate.
  - apply (proj2 (proj2 (proj2 (lesson_plan_slots [q1; q2] {[ "q1"%string ]}))) 0 q1 q2).
    + reflexivity.
    + discriminate.
    + vm_compute. discriminate.
Defined.

(** X14. The bar and the markers of the timeline never go beyond the
    right end: the position is at most 100 percent, it is 100 for every
    time from 900 seconds on, it is the time divided by 9 up to there,
    below 0 for a negative time, and a later time is never drawn to the
    left of an earlier one. *)
Theorem timelinePercent_spec (x y : Q) :
  (timelinePercent x <= 100)%Q
  /\ ((900 <= x)%Q -> (timelinePercent x == 100)%Q)
  /\ ((x <= 900)%Q -> (timelinePercent x == x / 9)%Q)
  /\ ((x < 0)%Q -> (timelinePercent x < 0)%Q)
  /\ ((x <= y)%Q -> (timelinePercent x <= timelinePercent y)%Q).
Proof.
  unfold timelinePercent.
  assert (E : forall z : Q, (z / 900 * 100 == z * (1 # 9))%Q) by (intros z; field).
  assert (E9 : forall z : Q, (z / 9 == z * (1 # 9))%Q) by (intros z; field).
  split_and!.
  - apply Q.le_min_r.
  - intros H. apply Q.min_r. rewrite E. lra.
  - intros H. rewrite Q.min_l; [rewrite E, E9; reflexivity|]. rewrite E. lra.
  - intros H. apply Q.min_lt_iff. left. rewrite E. lra.
  - intros H. apply Q.min_le_compat_r. rewrite !E. lra.
Qed.

Lemma timelinePercent_spec_witness :
  (timelinePercent 1200 == 100)%Q /\ (timelinePercent 90 == 90 / 9)%Q.
Proof.
  split.
  - apply (proj1 (proj2 (timelinePercent_spec 1200 0))). vm_compute. discriminate.
  - apply (proj1 (proj2 (proj2 (timelinePercent_spec 90 0)))). vm_compute. discriminate.
Defined.



(** ** The order of the questions *)

Lemma insert_sorted_front (x : QuizQuestion) (l : list QuizQuestion) :
  StronglySorted earlier (x :: l) -> insert_sorted byTimestamp x l = x :: l.
Proof.
  intros H. destruct l as [|y l]; [reflexivity|]. simpl.
  destruct (Qlt_bool 0 (byTimestamp x y)) eqn:E; [|reflexivity].
  exfalso. apply Qlt_bool_iff in E. unfold byTimestamp in E.
  inversion H as [|? ? _ Hx]; subst. inversion Hx as [|? ? Hxy _]; subst.
  unfold earlier in Hxy. lra.
Qed.

Lemma sort_sorted (l : list QuizQuestion) :
  StronglySorted earlier l -> sort byTimestamp l = l.
Proof.
  induction l as [|x l IH]; intros H; [reflexivity|]. simpl.
  rewrite IH by (inversion H; assumption). apply insert_sorted_front, H.
Qed.

Lemma insert_sorted_filter (t : Q) (x : QuizQuestion) (l : list QuizQuestion) :
  List.filter (fun q => Qeq_bool (timestamp q) t) (insert_sorted byTimestamp x l)
  = List.filter (fun q => Qeq_bool (timestamp q) t) (x :: l).
Proof.
  induction l as [|y l IH]; [reflexivity|]. simpl insert_sorted.
  destruct (Qlt_bool 0 (byTimestamp x y)) eqn:E; [|reflexivity].
  apply Qlt_bool_iff in E. unfold byTimestamp in E.
  cbn [List.filter] in *. rewrite IH.
  destruct (Qeq_bool (timestamp x) t) eqn:Ex; [|reflexivity].
  destruct (Qeq_bool (timestamp y) t) eqn:Ey; [|reflexivity].
  apply Qeq_bool_iff in Ex, Ey. exfalso. lra.
Qed.

(** X16. Sorting on receipt changes nothing in a list that already is
    in the order of its timestamps, so that sorting twice is sorting
    once; and in any list it keeps the questions of one and the same
    timestamp in the order the provider gave them. *)
Theorem sort_keeps_order (l : list QuizQuestion) :
  (StronglySorted earlier l -> sort byTimestamp l = l)
  /\ sort byTimestamp (sort byTimestamp l) = sort byTimestamp l
  /\ (forall t : Q,
         List.filter (fun q => Qeq_bool (timestamp q) t) (sort byTimestamp l)
         = List.filter (fun q => Qeq_bool (timestamp q) t) l).
Proof.
  split_and!.
  - apply sort_sorted.
  - apply sort_sorted, sort_byTimestamp_sorted.
  - intros t. induction l as [|x l IH]; [reflexivity|]. simpl sort.
    rewrite insert_sorted_filter. cbn [List.filter]. rewrite IH. reflexivity.
Qed.

Lemma sort_keeps_order_witness :
  let l := [sample_question "q1" 10; sample_question "q2" 20] in
  sort byTimestamp l = l.
Proof.
  intros l. apply (proj1 (sort_keeps_order l)).
  repeat constructor; vm_compute; discriminate.
Defined.

(** ** Leaving and starting again *)



(** ** The widgets of a page *)

Import Widget.

Lemma empty_Page_wellformed : Page_wellformed empty_Page.
Proof.
  unfold Page_wellformed, library_wellformed, widgets_wellformed, timers_wellformed,
    served, registered, live, running. simpl.
  split_and!; try lia; try discriminate;
    try (split; [congruence | discriminate]);
    try (intros; simplify_map_eq; fail);
    try (intros ? [? _]; lia);
    try (intros ? H; apply not_elem_of_empty in H; contradiction).
Qed.

(** [initializePlayer], with the library at hand: nothing happens, or
    the instance, in the page and without a widget, gets a new one. *)
Lemma initializePlayer_cases (i : nat) (pg : Page) :
  YT pg = true ->
  initializePlayer i pg = pg
  \/ exists inst,
      instances pg !! i = Some inst
      /\ containerRef inst = true /\ playerRef inst = None
      /\ initializePlayer i pg
         = mkPage (YT pg) (onYouTubeIframeAPIReady pg) (scripts pg)
                  (<[i := mkInstance true (Some (created pg)) (intervalRef inst)]>
                     (instances pg))
                  (S (created pg)) (destroyed pg) (started pg) (cleared pg)
                  (typeErrors pg).
Proof.
  intros Hyt. unfold initializePlayer.
  destruct (instances pg !! i) as [inst|] eqn:Hi; [|left; reflexivity].
  destruct (playerRef inst) eqn:Hp; [left; reflexivity|].
  destruct (containerRef inst) eqn:Hc; simpl; [|left; reflexivity].
  rewrite Hyt. right. exists inst. auto.
Qed.

Lemma initializePlayer_wellformed (i : nat) (pg : Page) :
  YT pg = true ->
  widgets_wellformed pg -> timers_wellformed pg ->
  widgets_wellformed (initializePlayer i pg) /\ timers_wellformed (initializePlayer i pg).
Proof.
  intros Hyt (W1 & W2 & W3 & W4) (T1 & T2 & T3).
  destruct (initializePlayer_cases i pg Hyt) as [->|(inst & Hi & Hc & Hp & ->)].
  { split; split_and!; assumption. }
  assert (Hfresh : created pg ∉ destroyed pg).
  { intros H. apply W4 in H. lia. }
  split.
  - unfold widgets_wellformed, live. simpl. split_and!.
    + intros j instj Hj. destruct (decide (i = j)) as [<-|Hne].
      * rewrite lookup_insert_eq in Hj. inversion Hj; subst instj. simpl.
        split; [discriminate|]. intros w E. inversion E; subst w. split; [lia | exact Hfresh].
      * rewrite lookup_insert_ne in Hj by exact Hne.
        destruct (W1 j instj Hj) as [Ha Hb]. split; [exact Ha|].
        intros w Hw. destruct (Hb w Hw) as [? ?]. split; [lia | assumption].
    + intros j k inst1 inst2 w Hj Hk H1 H2.
      destruct (decide (i = j)) as [<-|Hnj], (decide (i = k)) as [<-|Hnk];
        [reflexivity | | |].
      * rewrite lookup_insert_eq in Hj. inversion Hj; subst inst1. simpl in H1.
        inversion H1; subst w. rewrite lookup_insert_ne in Hk by exact Hnk.
        destruct (W1 k inst2 Hk) as [_ Hb]. destruct (Hb _ H2). lia.
      * rewrite lookup_insert_eq in Hk. inversion Hk; subst inst2. simpl in H2.
        inversion H2; subst w. rewrite lookup_insert_ne in Hj by exact Hnj.
        destruct (W1 j inst1 Hj) as [_ Hb]. destruct (Hb _ H1). lia.
      * rewrite lookup_insert_ne in Hj by exact Hnj.
        rewrite lookup_insert_ne in Hk by exact Hnk. eauto.
    + intros w [Hw Hd]. destruct (decide (w = created pg)) as [->|Hne].
      * exists i. eexists. rewrite lookup_insert_eq. split; reflexivity.
      * destruct (W3 w) as (j & instj & Hj & Hpj); [split; [lia | exact Hd]|].
        exists j, instj. split; [|exact Hpj].
        rewrite lookup_insert_ne; [exact Hj|]. intros <-. congruence.
    + intros w Hw. apply W4 in Hw. lia.
  - unfold timers_wellformed, running. simpl. split_and!.
    + intros j instj t Hj Ht. destruct (decide (i = j)) as [<-|Hne].
      * rewrite lookup_insert_eq in Hj. inversion Hj; subst instj. simpl in Ht. eauto.
      * rewrite lookup_insert_ne in Hj by exact Hne. eauto.
    + intros t Ht. destruct (T2 t Ht) as (j & instj & Hj & Hiv & Hcj & Hpj).
      destruct (decide (i = j)) as [<-|Hne].
      * rewrite Hi in Hj. inversion Hj; subst instj.
        exists i. eexists. rewrite lookup_insert_eq.
        split_and!; [reflexivity | exact Hiv | reflexivity | discriminate].
      * exists j, instj. rewrite lookup_insert_ne by exact Hne. auto.
    + exact T3.
Qed.

Lemma initializePlayer_frame (i : nat) (pg : Page) :
  YT pg = true ->
  YT (initializePlayer i pg) = true
  /\ onYouTubeIframeAPIReady (initializePlayer i pg) = onYouTubeIframeAPIReady pg
  /\ scripts (initializePlayer i pg) = scripts pg
  /\ typeErrors (initializePlayer i pg) = typeErrors pg
  /\ (forall j inst, instances pg !! j = Some inst ->
        exists inst', instances (initializePlayer i pg) !! j = Some inst'
                      /\ containerRef inst' = containerRef inst
                      /\ (playerRef inst <> None -> playerRef inst' <> None)
                      /\ (i = j -> containerRef inst = true -> playerRef inst' <> None))
  /\ (forall j inst', instances (initializePlayer i pg) !! j = Some inst' ->
        exists inst, instances pg !! j = Some inst).
Proof.
  intros Hyt.
  destruct (initializePlayer_cases i pg Hyt) as [E|(inst & Hi & Hc & Hp & E)].
  - rewrite E. split_and!; auto.
    + intros j inst Hj. exists inst. split_and!; auto.
      intros <- Hc. unfold initializePlayer in E. rewrite Hj in E.
      destruct (playerRef inst) eqn:Hp; [discriminate|].
      rewrite Hc, Hyt in E. simpl in E. exfalso.
      apply (f_equal created) in E. simpl in E. lia.
    + intros j inst' Hj. eauto.
  - rewrite E. simpl. split_and!; auto.
    + intros j instj Hj. destruct (decide (i = j)) as [<-|Hne].
      * rewrite lookup_insert_eq. eexists. split; [reflexivity|]. simpl.
        rewrite Hi in Hj. inversion Hj; subst instj.
        split_and!; try congruence; intros; discriminate.
      * rewrite lookup_insert_ne by exact Hne. exists instj.
        split_and!; auto; intros; contradiction.
    + intros j inst' Hj. destruct (decide (i = j)) as [<-|Hne].
      * eauto.
      * rewrite lookup_insert_ne in Hj by exact Hne. eauto.
Qed.


Lemma cleanup_spec (i : nat) (pg : Page) (inst : Instance) :
  instances pg !! i = Some inst ->
  cleanup i pg
  = mkPage (YT pg) (onYouTubeIframeAPIReady pg) (scripts pg)
           (<[i := mkInstance (containerRef inst) None (intervalRef inst)]> (instances pg))
           (created pg) (destroyed pg ∪ option_set (playerRef inst)) (started pg)
           (cleared pg ∪ option_set (intervalRef inst)) (typeErrors pg).
Proof.
  intros Hi. unfold cleanup. rewrite Hi.
  destruct inst as [c [w|] iv]; simpl.
  - destruct iv; simpl; rewrite ?union_empty_r_L; reflexivity.
  - rewrite insert_id by exact Hi.
    destruct iv; simpl; rewrite ?union_empty_r_L; reflexivity.
Qed.

Lemma cleanup_wellformed (i : nat) (pg : Page) :
  widgets_wellformed pg -> timers_wellformed pg ->
  widgets_wellformed (cleanup i pg) /\ timers_wellformed (cleanup i pg).
Proof.
  intros (W1 & W2 & W3 & W4) (T1 & T2 & T3).
  destruct (instances pg !! i) as [inst|] eqn:Hi.
  2:{ unfold cleanup. rewrite Hi. split; split_and!; assumption. }
  rewrite (cleanup_spec i pg inst Hi). split.
  - unfold widgets_wellformed, live. simpl. split_and!.
    + intros j instj Hj. destruct (decide (i = j)) as [<-|Hne].
      * rewrite lookup_insert_eq in Hj. inversion Hj; subst instj. simpl.
        split; [reflexivity | discriminate].
      * rewrite lookup_insert_ne in Hj by exact Hne.
        destruct (W1 j instj Hj) as [Ha Hb]. split; [exact Ha|].
        intros w Hw. destruct (Hb w Hw) as [? Hd]. split; [assumption|].
        intros Hin. apply elem_of_union in Hin as [Hin|Hin]; [contradiction|].
        destruct (playerRef inst) as [w'|] eqn:Hp; simpl in Hin;
          [|apply not_elem_of_empty in Hin; contradiction].
        apply elem_of_singleton in Hin. subst w'.
        apply Hne. eapply (W2 i j); eauto.
    + intros j k inst1 inst2 w Hj Hk H1 H2.
      destruct (decide (i = j)) as [<-|Hnj].
      { rewrite lookup_insert_eq in Hj. inversion Hj; subst inst1. discriminate. }
      destruct (decide (i = k)) as [<-|Hnk].
      { rewrite lookup_insert_eq in Hk. inversion Hk; subst inst2. discriminate. }
      rewrite lookup_insert_ne in Hj by exact Hnj.
      rewrite lookup_insert_ne in Hk by exact Hnk. eauto.
    + intros w [Hw Hd].
      destruct (W3 w) as (j & instj & Hj & Hpj).
      { split; [exact Hw|]. intros Hin. apply Hd, elem_of_union. auto. }
      exists j, instj. split; [|exact Hpj].
      rewrite lookup_insert_ne; [exact Hj|]. intros <-.
      rewrite Hi in Hj. inversion Hj; subst instj. apply Hd, elem_of_union. right.
      rewrite Hpj. simpl. apply elem_of_singleton. reflexivity.
    + intros w Hin. apply elem_of_union in Hin as [Hin|Hin]; [auto|].
      destruct (playerRef inst) as [w'|] eqn:Hp; simpl in Hin;
        [|apply not_elem_of_empty in Hin; contradiction].
      apply elem_of_singleton in Hin. subst w'.
      destruct (W1 i inst Hi) as [_ Hb]. apply (Hb w Hp).
  - unfold timers_wellformed, running. simpl. split_and!.
    + intros j instj t Hj Ht. destruct (decide (i = j)) as [<-|Hne].
      * rewrite lookup_insert_eq in Hj. inversion Hj; subst instj. simpl in Ht. eauto.
      * rewrite lookup_insert_ne in Hj by exact Hne. eauto.
    + intros t [Ht Hc].
      destruct (T2 t) as (j & instj & Hj & Hiv & Hcj & Hpj).
      { split; [exact Ht|]. intros Hin. apply Hc, elem_of_union. auto. }
      exists j, instj. split_and!; auto.
      rewrite lookup_insert_ne; [exact Hj|]. intros <-.
      rewrite Hi in Hj. inversion Hj; subst instj. apply Hc, elem_of_union. right.
      rewrite Hiv. simpl. apply elem_of_singleton. reflexivity.
    + intros t Hin. apply elem_of_union in Hin as [Hin|Hin]; [auto|].
      destruct (intervalRef inst) as [t'|] eqn:Hiv; simpl in Hin;
        [|apply not_elem_of_empty in Hin; contradiction].
      apply elem_of_singleton in Hin. subst t'. eauto.
Qed.

Lemma onReady_wellformed (i : nat) (pg : Page) (inst : Instance) :
  instances pg !! i = Some inst ->
  containerRef inst = true ->
  playerRef inst <> None ->
  widgets_wellformed pg -> timers_wellformed pg ->
  widgets_wellformed (onReady i pg) /\ timers_wellformed (onReady i pg).
Proof.
  intros Hi Hc Hp (W1 & W2 & W3 & W4) (T1 & T2 & T3).
  unfold onReady. rewrite Hi.
  change (match intervalRef inst with
          | Some t => cleared pg ∪ {[t]}
          | None => cleared pg
          end)
    with (match intervalRef inst with
          | Some t => cleared pg ∪ {[t]}
          | None => cleared pg
          end).
  split.
  - unfold widgets_wellformed, live. simpl. split_and!.
    + intros j instj Hj. destruct (decide (i = j)) as [<-|Hne].
      * rewrite lookup_insert_eq in Hj. inversion Hj; subst instj. simpl.
        apply (W1 i inst Hi).
      * rewrite lookup_insert_ne in Hj by exact Hne. apply (W1 j instj Hj).
    + intros j k inst1 inst2 w Hj Hk H1 H2.
      destruct (decide (i = j)) as [<-|Hnj], (decide (i = k)) as [<-|Hnk];
        [reflexivity | | |].
      * rewrite lookup_insert_eq in Hj. inversion Hj; subst inst1. simpl in H1.
        rewrite lookup_insert_ne in Hk by exact Hnk. eapply (W2 i k); eauto.
      * rewrite lookup_insert_eq in Hk. inversion Hk; subst inst2. simpl in H2.
        rewrite lookup_insert_ne in Hj by exact Hnj. eapply (W2 j i); eauto.
      * rewrite lookup_insert_ne in Hj by exact Hnj.
        rewrite lookup_insert_ne in Hk by exact Hnk. eauto.
    + intros w Hw. destruct (W3 w Hw) as (j & instj & Hj & Hpj).
      destruct (decide (i = j)) as [<-|Hne].
      * rewrite Hi in Hj. inversion Hj; subst instj.
        exists i. eexists. rewrite lookup_insert_eq. split; [reflexivity | exact Hpj].
      * exists j, instj. rewrite lookup_insert_ne by exact Hne. auto.
    + exact W4.
  - unfold timers_wellformed, running. simpl. split_and!.
    + intros j instj t Hj Ht. destruct (decide (i = j)) as [<-|Hne].
      * rewrite lookup_insert_eq in Hj. inversion Hj; subst instj. simpl in Ht.
        inversion Ht. lia.
      * rewrite lookup_insert_ne in Hj by exact Hne.
        specialize (T1 j instj t Hj Ht). lia.
    + intros t [Ht Hcl]. destruct (decide (t = started pg)) as [->|Hne].
      * exists i. eexists. rewrite lookup_insert_eq.
        split_and!; [reflexivity | reflexivity | exact Hc | exact Hp].
      * destruct (T2 t) as (j & instj & Hj & Hiv & Hcj & Hpj).
        { split; [lia|]. intros Hin. apply Hcl.
          destruct (intervalRef inst); [apply elem_of_union; auto | exact Hin]. }
        exists j, instj. split_and!; auto.
        rewrite lookup_insert_ne; [exact Hj|]. intros <-.
        rewrite Hi in Hj. inversion Hj; subst instj. apply Hcl.
        rewrite Hiv. apply elem_of_union. right. apply elem_of_singleton. reflexivity.
    + intros t Hin.
      assert (t ∈ cleared pg \/ intervalRef inst = Some t) as [H|H].
      { destruct (intervalRef inst); [|auto].
        apply elem_of_union in Hin as [Hin|Hin]; [auto|].
        apply elem_of_singleton in Hin. subst. auto. }
      * apply T3 in H. lia.
      * specialize (T1 i inst t Hi H). lia.
Qed.

Lemma effect_wellformed (i : nat) (pg : Page) (inst : Instance) :
  instances pg !! i = Some inst ->
  containerRef inst = true ->
  library_wellformed pg -> widgets_wellformed pg -> timers_wellformed pg ->
  (YT pg = true ->
   forall j instj, j <> i -> instances pg !! j = Some instj ->
                   containerRef instj = true -> playerRef instj <> None) ->
  (YT pg = false ->
   forall j instj, j <> i -> instances pg !! j = Some instj ->
                   containerRef instj = true ->
                   exists callback g, onYouTubeIframeAPIReady pg = Some callback
                                      /\ In (g, j) callback) ->
  Page_wellformed (effect i pg).
Proof.
  intros Hi Hc (L1 & L2 & L3 & L4) W T Hserved Hreg. unfold effect.
  destruct (YT pg) eqn:Hyt.
  - destruct (initializePlayer_frame i pg Hyt) as (F1 & F2 & F3 & F4 & F5 & F6).
    destruct (initializePlayer_wellformed i pg Hyt W T) as [W' T'].
    split_and!; [| exact W' | exact T' | |].
    + unfold library_wellformed. rewrite F2, F3, F4. auto.
    + intros _ j inst' Hj Hcj.
      destruct (F6 j inst' Hj) as (instj & Hj0).
      destruct (F5 j instj Hj0) as (inst'' & Hj' & Hc' & Hp' & Hi').
      rewrite Hj in Hj'. inversion Hj'; subst inst''.
      destruct (decide (i = j)) as [E|Hne].
      * apply Hi'; [exact E | congruence].
      * apply Hp'. apply (Hserved eq_refl j instj); [congruence | exact Hj0 | congruence].
    + intros E. congruence.
  - destruct (onYouTubeIframeAPIReady pg) as [oldCallback|] eqn:Hcb.
    + split_and!; [| exact W | exact T | |].
      * unfold library_wellformed. simpl. split_and!; auto.
        split; [intros _; apply L4; discriminate | discriminate].
      * intros E. simpl in E. congruence.
      * intros _ j instj Hj Hcj. simpl in *.
        exists (oldCallback ++ [(false, i)]).
        destruct (decide (j = i)) as [->|Hne].
        -- exists false. split; [reflexivity|]. apply in_or_app. right. left. reflexivity.
        -- destruct (Hreg eq_refl j instj Hne Hj Hcj) as (cb & g & Hcb' & Hin).
           inversion Hcb'; subst cb. exists g. split; [reflexivity|].
           apply in_or_app. left. exact Hin.
    + assert (Hs : scripts pg = 0).
      { destruct (decide (scripts pg = 1)) as [E|E]; [|lia].
        apply L4 in E. congruence. }
      split_and!; [| exact W | exact T | |].
      * unfold library_wellformed. simpl. rewrite Hs. split_and!; auto.
        split; [reflexivity | discriminate].
      * intros E. simpl in E. congruence.
      * intros _ j instj Hj Hcj. simpl in *.
        exists [(true, i)]. destruct (decide (j = i)) as [->|Hne].
        -- exists true. split; [reflexivity | left; reflexivity].
        -- destruct (Hreg eq_refl j instj Hne Hj Hcj) as (cb & g & Hcb' & _).
           discriminate.
Qed.

Lemma call_wellformed (callback : list (bool * nat)) (pg : Page) :
  YT pg = true ->
  library_wellformed pg -> widgets_wellformed pg -> timers_wellformed pg ->
  let pg' := call callback pg in
  library_wellformed pg' /\ widgets_wellformed pg' /\ timers_wellformed pg'
  /\ YT pg' = true
  /\ onYouTubeIframeAPIReady pg' = onYouTubeIframeAPIReady pg
  /\ (forall j inst, instances pg !! j = Some inst ->
        exists inst', instances pg' !! j = Some inst'
                      /\ containerRef inst' = containerRef inst
                      /\ (playerRef inst <> None -> playerRef inst' <> None)
                      /\ ((exists g, In (g, j) callback) -> containerRef inst = true ->
                          playerRef inst' <> None))
  /\ (forall j inst', instances pg' !! j = Some inst' ->
        exists inst, instances pg !! j = Some inst).
Proof.
  revert pg. induction callback as [|[g i] callback IH]; intros pg Hyt L W T; simpl.
  - split_and!; auto.
    + intros j inst Hj. exists inst. split_and!; auto. intros [g []].
    + intros j inst' Hj. eauto.
  - rewrite Hyt.
    assert (E : (if g then initializePlayer i pg else initializePlayer i pg)
                = initializePlayer i pg) by (destruct g; reflexivity).
    rewrite E. clear E.
    destruct (initializePlayer_frame i pg Hyt) as (F1 & F2 & F3 & F4 & F5 & F6).
    destruct (initializePlayer_wellformed i pg Hyt W T) as [W' T'].
    assert (L' : library_wellformed (initializePlayer i pg)).
    { destruct L as (L1 & L2 & L3 & L4). unfold library_wellformed.
      rewrite F2, F3, F4. auto. }
    destruct (IH (initializePlayer i pg) F1 L' W' T')
      as (L'' & W'' & T'' & Y'' & C'' & G5 & G6).
    split_and!; auto.
    + rewrite <- F2. exact C''.
    + intros j inst Hj.
      destruct (F5 j inst Hj) as (inst1 & Hj1 & Hc1 & Hp1 & Hi1).
      destruct (G5 j inst1 Hj1) as (inst2 & Hj2 & Hc2 & Hp2 & Hi2).
      exists inst2. split_and!; [exact Hj2 | congruence | auto |].
      intros [g' [Hin|Hin]] Hc.
      * inversion Hin; subst. apply Hp2, Hi1; auto.
      * apply Hi2; [eauto | congruence].
    + intros j inst' Hj. destruct (G6 j inst' Hj) as (inst1 & Hj1). eauto.
Qed.

Lemma set_instance_wellformed (i : nat) (new : Instance) (pg : Page) :
  widgets_wellformed pg -> timers_wellformed pg ->
  playerRef new = None ->
  (forall t, intervalRef new = Some t -> t < started pg) ->
  (forall old, instances pg !! i = Some old -> playerRef old = None) ->
  widgets_wellformed (set_instance i new pg) /\ timers_wellformed (set_instance i new pg).
Proof.
  intros (W1 & W2 & W3 & W4) (T1 & T2 & T3) Hp Ht Hold.
  unfold widgets_wellformed, timers_wellformed, set_instance, live, running in *. simpl.
  split; split_and!.
  - intros j inst Hj. destruct (decide (i = j)) as [<-|Hne].
    + rewrite lookup_insert_eq in Hj. inversion Hj; subst inst.
      split; [auto | intros w E; congruence].
    + rewrite lookup_insert_ne in Hj by exact Hne. eauto.
  - intros j k inst1 inst2 w Hj Hk E1 E2.
    destruct (decide (i = j)) as [<-|Hj'].
    { rewrite lookup_insert_eq in Hj. inversion Hj; subst inst1. congruence. }
    destruct (decide (i = k)) as [<-|Hk'].
    { rewrite lookup_insert_eq in Hk. inversion Hk; subst inst2. congruence. }
    rewrite lookup_insert_ne in Hj by exact Hj'.
    rewrite lookup_insert_ne in Hk by exact Hk'. eauto.
  - intros w Hw. destruct (W3 w Hw) as (j & inst & Hj & E).
    exists j, inst. split; [|exact E].
    destruct (decide (i = j)) as [<-|Hne].
    + apply Hold in Hj. congruence.
    + rewrite lookup_insert_ne by exact Hne. exact Hj.
  - exact W4.
  - intros j inst t Hj E. destruct (decide (i = j)) as [<-|Hne].
    + rewrite lookup_insert_eq in Hj. inversion Hj; subst inst. auto.
    + rewrite lookup_insert_ne in Hj by exact Hne. eauto.
  - intros t Hr. destruct (T2 t Hr) as (j & inst & Hj & E & Hc & Hw).
    exists j, inst. split_and!; auto.
    destruct (decide (i = j)) as [<-|Hne].
    + apply Hold in Hj. congruence.
    + rewrite lookup_insert_ne by exact Hne. exact Hj.
  - exact T3.
Qed.

Lemma page_step_Mount (i : nat) (pg : Page) :
  Page_wellformed pg -> Page_wellformed (page_step (Mount i) pg).
Proof.
  intros H. pose proof H as (L & W & T & S & R). simpl.
  destruct (instances pg !! i) as [inst|] eqn:Hi; [exact H|].
  destruct (set_instance_wellformed i (mkInstance true None None) pg W T) as [W' T'];
    [reflexivity | discriminate | congruence |].
  apply (effect_wellformed i _ (mkInstance true None None)); auto.
  - simpl. apply lookup_insert_eq.
  - intros Hyt j instj Hne Hj. simpl in Hj, Hyt.
    rewrite lookup_insert_ne in Hj by congruence. eauto.
  - intros Hyt j instj Hne Hj. simpl in Hj, Hyt.
    rewrite lookup_insert_ne in Hj by congruence. eauto.
Qed.

Lemma page_step_ChangeVideoId (i : nat) (pg : Page) :
  Page_wellformed pg -> Page_wellformed (page_step (ChangeVideoId i) pg).
Proof.
  intros H. pose proof H as (L & W & T & S & R). simpl.
  destruct (instances pg !! i) as [inst|] eqn:Hi; [|exact H].
  destruct (containerRef inst) eqn:Hc; [|exact H].
  destruct (cleanup_wellformed i pg W T) as [W' T'].
  rewrite (cleanup_spec i pg inst Hi) in *.
  apply (effect_wellformed i _ (mkInstance (containerRef inst) None (intervalRef inst))); auto.
  - simpl. apply lookup_insert_eq.
  - intros Hyt j instj Hne Hj. simpl in Hj, Hyt.
    rewrite lookup_insert_ne in Hj by congruence. eauto.
  - intros Hyt j instj Hne Hj. simpl in Hj, Hyt.
    rewrite lookup_insert_ne in Hj by congruence. eauto.
Qed.

Lemma page_step_Unmount (i : nat) (pg : Page) :
  Page_wellformed pg -> Page_wellformed (page_step (Unmount i) pg).
Proof.
  intros H. pose proof H as (L & W & T & S & R). simpl.
  destruct (instances pg !! i) as [inst|] eqn:Hi; [|exact H].
  destruct (containerRef inst) eqn:Hc; [|exact H].
  destruct (cleanup_wellformed i pg W T) as [W' T'].
  rewrite (cleanup_spec i pg inst Hi) in *. simpl.
  rewrite lookup_insert_eq. simpl.
  match goal with |- Page_wellformed (set_instance i ?new ?pg') =>
    destruct (set_instance_wellformed i new pg' W' T') as [W'' T'']
  end.
  - reflexivity.
  - simpl. intros t E. destruct T as (T1 & _). eauto.
  - simpl. rewrite lookup_insert_eq. intros old E. inversion E. reflexivity.
  - split_and!; [exact L | exact W'' | exact T'' | |].
    + intros Hyt j instj Hj Hcj. simpl in Hj, Hyt.
      destruct (decide (i = j)) as [<-|Hne].
      * rewrite lookup_insert_eq in Hj. inversion Hj; subst instj. discriminate.
      * rewrite !lookup_insert_ne in Hj by exact Hne. eauto.
    + intros Hyt j instj Hj Hcj. simpl in Hj, Hyt.
      destruct (decide (i = j)) as [<-|Hne].
      * rewrite lookup_insert_eq in Hj. inversion Hj; subst instj. discriminate.
      * rewrite !lookup_insert_ne in Hj by exact Hne. simpl. eauto.
Qed.

Lemma page_step_LibraryLoaded (pg : Page) :
  Page_wellformed pg -> Page_wellformed (page_step LibraryLoaded pg).
Proof.
  intros H. pose proof H as (L & W & T & S & R). simpl.
  destruct (YT pg) eqn:Hyt; simpl; [exact H|].
  destruct (Nat.ltb_spec 0 (scripts pg)) as [Hs|Hs]; [|exact H].
  destruct L as (L1 & L2 & L3 & L4).
  assert (Hs1 : scripts pg = 1) by lia.
  destruct (onYouTubeIframeAPIReady pg) as [callback|] eqn:Hcb;
    [|apply L4 in Hs1; congruence].
  set (pg' := mkPage true (Some callback) (scripts pg) (instances pg) (created pg)
                     (destroyed pg) (started pg) (cleared pg) (typeErrors pg)).
  assert (L' : library_wellformed pg').
  { unfold library_wellformed. simpl. split_and!; auto; discriminate. }
  destruct (call_wellformed callback pg' eq_refl L' W T)
    as (L'' & W'' & T'' & Y'' & C'' & G5 & G6).
  split_and!; auto.
  - intros _ j inst' Hj Hcj.
    destruct (G6 j inst' Hj) as (inst & Hj0).
    destruct (G5 j inst Hj0) as (inst'' & Hj' & Hc' & _ & Hi').
    rewrite Hj in Hj'. inversion Hj'; subst inst''.
    assert (Hc0 : containerRef inst = true) by congruence.
    destruct (R Hyt j inst Hj0 Hc0) as (cb & g & E & Hin).
    assert (Ecb : cb = callback) by congruence. subst cb. apply Hi'; eauto.
  - intros E. congruence.
Qed.

Lemma page_step_WidgetReady (i : nat) (pg : Page) :
  Page_wellformed pg -> Page_wellformed (page_step (WidgetReady i) pg).
Proof.
  intros H. pose proof H as (L & W & T & S & R). simpl.
  destruct (instances pg !! i) as [inst|] eqn:Hi; [|exact H].
  destruct (playerRef inst) as [w|] eqn:Hp; [|exact H].
  assert (Hc : containerRef inst = true).
  { destruct (containerRef inst) eqn:Hc; [reflexivity|].
    destruct W as (W1 & _). destruct (W1 i inst Hi) as [E _].
    rewrite E in Hp by exact Hc. discriminate. }
  destruct (onReady_wellformed i pg inst Hi Hc) as [W' T']; auto; [congruence|].
  split_and!; auto; unfold onReady in *; rewrite Hi in *; simpl.
  - exact L.
  - intros Hyt j instj Hj Hcj. simpl in Hj, Hyt.
    destruct (decide (i = j)) as [<-|Hne].
    + rewrite lookup_insert_eq in Hj. inversion Hj; subst instj. simpl. congruence.
    + rewrite lookup_insert_ne in Hj by exact Hne. eauto.
  - intros Hyt j instj Hj Hcj. simpl in Hj, Hyt.
    destruct (decide (i = j)) as [<-|Hne].
    + rewrite lookup_insert_eq in Hj. inversion Hj; subst instj. simpl in *. eauto.
    + rewrite lookup_insert_ne in Hj by exact Hne. eauto.
Qed.

Lemma page_step_wellformed (e : PageEvent) (pg : Page) :
  Page_wellformed pg -> Page_wellformed (page_step e pg).
Proof.
  destruct e.
  - apply page_step_Mount.
  - apply page_step_ChangeVideoId.
  - apply page_step_Unmount.
  - apply page_step_LibraryLoaded.
  - apply page_step_WidgetReady.
Qed.

Lemma page_run_wellformed (events : list PageEvent) : Page_wellformed (page_run events).
Proof.
  unfold page_run.
  assert (G : forall pg, Page_wellformed pg ->
                         Page_wellformed (fold_left (fun pg e => page_step e pg) events pg)).
  { induction events as [|e events IH]; intros pg Hpg; simpl; [exact Hpg|].
    apply IH, page_step_wellformed, Hpg. }
  apply G, empty_Page_wellformed.
Qed.

Lemma initializePlayer_created (i : nat) (pg : Page) :
  YT (initializePlayer i pg) = YT pg
  /\ (YT pg = false -> created (initializePlayer i pg) = created pg).
Proof.
  unfold initializePlayer.
  destruct (instances pg !! i) as [inst|]; [|auto].
  destruct (playerRef inst); [auto|].
  destruct (containerRef inst); simpl; [|auto].
  destruct (YT pg) eqn:Hyt; simpl; split; auto; discriminate.
Qed.

Lemma page_step_created (e : PageEvent) (pg : Page) :
  Page_wellformed pg ->
  (YT pg = false -> created pg = 0) ->
  YT (page_step e pg) = false -> created (page_step e pg) = 0.
Proof.
  intros H Hpg. destruct e as [i|i|i| |i]; simpl.
  - destruct (instances pg !! i); [exact Hpg|].
    unfold effect. simpl. destruct (YT pg) eqn:Hyt.
    + destruct (initializePlayer_created i (set_instance i (mkInstance true None None) pg))
        as [E _]. rewrite E. simpl. congruence.
    + destruct (onYouTubeIframeAPIReady pg); simpl; auto.
  - destruct (instances pg !! i) as [inst|] eqn:Hi; [|exact Hpg].
    destruct (containerRef inst); [|exact Hpg].
    rewrite (cleanup_spec i pg inst Hi). unfold effect. simpl.
    destruct (YT pg) eqn:Hyt.
    + match goal with |- YT (initializePlayer i ?p) = _ -> _ =>
        destruct (initializePlayer_created i p) as [E _]; rewrite E
      end. simpl. congruence.
    + destruct (onYouTubeIframeAPIReady pg); simpl; auto.
  - destruct (instances pg !! i) as [inst|] eqn:Hi; [|exact Hpg].
    destruct (containerRef inst); [|exact Hpg].
    rewrite (cleanup_spec i pg inst Hi). simpl. rewrite lookup_insert_eq. simpl. exact Hpg.
  - destruct (YT pg) eqn:Hyt; simpl; [intros E; congruence|].
    destruct (Nat.ltb_spec 0 (scripts pg)) as [Hs|Hs]; [|rewrite Hyt; auto].
    destruct H as (L & W & T & _).
    destruct (onYouTubeIframeAPIReady pg) as [callback|]; simpl; [|discriminate].
    match goal with |- YT (call callback ?p) = _ -> _ =>
      assert (L' : library_wellformed p)
    end.
    { destruct L as (L1 & L2 & L3 & L4). unfold library_wellformed. simpl.
      split_and!; auto; try (intros; lia).
      split; [intros; lia | discriminate]. }
    match goal with |- YT (call callback ?p) = _ -> _ =>
      destruct (call_wellformed callback p eq_refl L' W T) as (_ & _ & _ & Y & _)
    end.
    intros E. congruence.
  - destruct (instances pg !! i) as [inst|] eqn:Hi; [|exact Hpg].
    destruct (playerRef inst); [|exact Hpg].
    unfold onReady. rewrite Hi. simpl. exact Hpg.
Qed.

Lemma page_run_snoc (events : list PageEvent) (e : PageEvent) :
  page_run (events ++ [e]) = page_step e (page_run events).
Proof. unfold page_run. rewrite fold_left_app. reflexivity. Qed.

Lemma page_run_created (events : list PageEvent) :
  YT (page_run events) = false -> created (page_run events) = 0.
Proof.
  induction events as [|e events IH] using rev_ind; [reflexivity|].
  rewrite page_run_snoc. apply page_step_created; [apply page_run_wellformed | exact IH].
Qed.

(** X18. However instances of the player are mounted, rebound to
    another video and unmounted, and whenever the library loads: the
    script of the library is inserted into the page at most once, and
    [initializePlayer] never reaches [new window.YT.Player] while the
    library is missing. *)
Theorem page_script_once (events : list PageEvent) :
  scripts (page_run events) <= 1
  /\ typeErrors (page_run events) = 0
  /\ (onYouTubeIframeAPIReady (page_run events) <> None <-> scripts (page_run events) = 1).
Proof.
  destruct (page_run_wellformed events) as ((L1 & L2 & L3 & L4) & _). auto.
Qed.

(** X19. On every page the widgets that were created and not destroyed
    are exactly the widgets held in the [playerRef] of an instance that
    is in the page, and no widget is held by two instances: the cleanup
    of the effect leaves no widget behind, and an instance that has left
    the page gets none from a callback that runs later. *)
Theorem page_widgets_held (events : list PageEvent) (w : nat) :
  (live (page_run events) w
   <-> exists i inst, instances (page_run events) !! i = Some inst
                      /\ containerRef inst = true /\ playerRef inst = Some w)
  /\ (forall i j inst1 inst2,
        instances (page_run events) !! i = Some inst1 ->
        instances (page_run events) !! j = Some inst2 ->
        playerRef inst1 = Some w -> playerRef inst2 = Some w -> i = j).
Proof.
  destruct (page_run_wellformed events) as (_ & (W1 & W2 & W3 & W4) & _).
  split.
  - split.
    + intros Hw. destruct (W3 w Hw) as (i & inst & Hi & Hp).
      exists i, inst. split_and!; auto.
      destruct (containerRef inst) eqn:Hc; [reflexivity|].
      destruct (W1 i inst Hi) as [E _]. rewrite E in Hp by exact Hc. discriminate.
    + intros (i & inst & Hi & _ & Hp). destruct (W1 i inst Hi) as [_ E]. auto.
  - intros i j inst1 inst2. apply W2.
Qed.

(** X20. An instance that is in the page holds a widget once the library
    is loaded; before that it holds none, and its [initializePlayer] is
    part of the callback the library will call. *)
Theorem page_instance_served (events : list PageEvent) (i : nat) (inst : Instance) :
  instances (page_run events) !! i = Some inst ->
  containerRef inst = true ->
  if YT (page_run events) then playerRef inst <> None
  else playerRef inst = None
       /\ exists callback g, onYouTubeIframeAPIReady (page_run events) = Some callback
                             /\ In (g, i) callback.
Proof.
  intros Hi Hc.
  destruct (page_run_wellformed events) as (_ & (W1 & _) & _ & S & R).
  destruct (YT (page_run events)) eqn:Hyt.
  - apply (S Hyt i inst Hi Hc).
  - split; [|apply (R Hyt i inst Hi Hc)].
    destruct (playerRef inst) as [w|] eqn:Hp; [|reflexivity].
    destruct (W1 i inst Hi) as [_ E]. destruct (E w Hp) as [Hlt _].
    rewrite (page_run_created events Hyt) in Hlt. lia.
Qed.

Lemma page_instance_served_witness :
  playerRef (mkInstance true (Some 0) None) <> None.
Proof.
  apply (page_instance_served [Mount 0; LibraryLoaded] 0 (mkInstance true (Some 0) None)).
  - vm_compute. reflexivity.
  - reflexivity.
Defined.

(** X21. Every timer that was started and not cleared is the one in the
    [intervalRef] of an instance that is in the page and holds a widget:
    no timer goes on polling for an instance that was unmounted or whose
    widget was destroyed (a widget reporting ready only while its
    instance holds it). *)
Theorem page_timers_held (events : list PageEvent) (t : nat) :
  running (page_run events) t ->
  exists i inst, instances (page_run events) !! i = Some inst
                 /\ intervalRef inst = Some t
                 /\ containerRef inst = true /\ playerRef inst <> None.
Proof.
  destruct (page_run_wellformed events) as (_ & _ & (T1 & T2 & T3) & _). apply T2.
Qed.

Lemma page_timers_held_witness :
  exists i inst,
    instances (page_run [Mount 0; LibraryLoaded; WidgetReady 0]) !! i = Some inst
    /\ intervalRef inst = Some 0
    /\ containerRef inst = true /\ playerRef inst <> None.
Proof.
  apply (page_timers_held [Mount 0; LibraryLoaded; WidgetReady 0] 0).
  split.
  - vm_compute. lia.
  - intros H. apply (bool_decide_pack _) in H. vm_compute in H. exact H.
Defined.
